(** * Monte Carlo option pricing and its parallel dispatch

    A shallow embedding of the notebook "Parallel Monto-Carlo options
    pricing": the function [price_options] and the cells that fan a
    (strike, sigma) grid out over an IPython.parallel load-balanced view
    and assemble the result array.

    Numbers.  The notebook computes in binary64.  The embedding computes in
    the real numbers [R]: rounding, overflow ([math.exp] raising
    OverflowError) and infinities are outside the model.  The one
    not-a-number the code produces from finite data, the mean of an empty
    array, is kept ([NaN]).  Python integers are [Z].

    Effects.  [np.random.standard_normal] reads the ambient generator of
    the process that runs the function.  The generator is a stream of reals
    together with a read position; both live in [world], which is threaded
    through the code by a state-and-exception monad. *)

From Stdlib Require Import Reals Lra Lia ZArith List Ascii.
From stdpp Require Import base list sorting strings gmap.
Import ListNotations.

Open Scope R_scope.

(** ** Python exceptions *)

Inductive exn : Type :=
  | ZeroDivisionError
  | ValueError
  | IndexError
  | OtherError (code : nat)
  | RemoteError (cause : exn).

(** ** The process state seen by [price_options] *)

Record world : Type := mkWorld {
  rng : nat -> R;        (* the stream the ambient generator will deliver *)
  rng_pos : nat;         (* how many draws have been consumed *)
  allocated : nat        (* arrays created by np.ones / np.zeros / standard_normal *)
}.

Definition M (A : Type) : Type := world -> (exn + A) * world.

Definition ret {A} (a : A) : M A := fun w => (inr a, w).

Definition raise {A} (e : exn) : M A := fun w => (inl e, w).

Definition bind {A B} (c : M A) (k : A -> M B) : M B :=
  fun w => match c w with
           | (inr a, w') => k a w'
           | (inl e, w') => (inl e, w')
           end.

Notation "'let*' x ':=' c 'in' k" := (bind c (fun x => k))
  (at level 10, x pattern, c at level 100, k at level 200).

(** ** Floats and arrays *)

(** A float64 result: a number, or the nan of an empty mean. *)
Inductive fval : Type :=
  | Num (x : R)
  | NaN.

Definition fscale (c : R) (v : fval) : fval :=
  match v with
  | Num x => Num (c * x)
  | NaN => NaN
  end.

Definition vec : Type := list R.

(** Elementwise binary operation on two arrays of one shape. *)
Definition zipWith (f : R -> R -> R) (a b : vec) : vec :=
  map (fun p => f (fst p) (snd p)) (combine a b).

(** [1.0/days]: true division of a float by a Python int. *)
Definition float_div_int (x : R) (d : Z) : M R :=
  if (d =? 0)%Z then raise ZeroDivisionError else ret (x / IZR d).

(** [math.sqrt]: "math domain error" on a negative argument. *)
Definition math_sqrt (x : R) : M R :=
  if Rlt_dec x 0 then raise ValueError else ret (sqrt x).

Definition alloc (w : world) : world :=
  mkWorld (rng w) (rng_pos w) (S (allocated w)).

(** [np.ones(n)], [np.zeros(n)]: "negative dimensions are not allowed". *)
Definition np_full (c : R) (n : Z) : M vec :=
  if (n <? 0)%Z then raise ValueError
  else fun w => (inr (repeat c (Z.to_nat n)), alloc w).

Definition np_ones (n : Z) : M vec := np_full 1 n.
Definition np_zeros (n : Z) : M vec := np_full 0 n.

(** [np.random.standard_normal(n)]: the next [n] draws of the generator. *)
Definition standard_normal (n : Z) : M vec :=
  if (n <? 0)%Z then raise ValueError
  else fun w =>
    (inr (map (rng w) (seq (rng_pos w) (Z.to_nat n))),
     mkWorld (rng w) (rng_pos w + Z.to_nat n) (S (allocated w))).

Definition np_exp (v : vec) : vec := map exp v.

Definition np_maximum (a b : vec) : vec := zipWith Rmax a b.

Definition np_sum (v : vec) : R := fold_right Rplus 0 v.

(** [np.mean]: nan on an empty array. *)
Definition np_mean (v : vec) : fval :=
  match v with
  | [] => NaN
  | _ :: _ => Num (np_sum v / INR (length v))
  end.

(** ** price_options *)

Definition quote : Type := (fval * fval * fval * fval)%type.

(** The body of [for j in range(days)], iterated [n] times. *)
Fixpoint for_days (n : nat) (const1 const2 : R) (paths : Z)
    (stock_price stock_price_sum : vec) : M (vec * vec) :=
  match n with
  | O => ret (stock_price, stock_price_sum)
  | S n' =>
      let* z := standard_normal paths in
      let growth_factor := map (Rmult const1) (np_exp (map (Rmult const2) z)) in
      let stock_price := zipWith Rmult stock_price growth_factor in
      let stock_price_sum := zipWith Rplus stock_price_sum stock_price in
      for_days n' const1 const2 paths stock_price stock_price_sum
  end.

(** [r_factor = exp(-r*h*days)]. *)
Definition r_factor (r h : R) (days : Z) : R := exp (- r * h * IZR days).

(** The first parameter is [S] in the source. *)
Definition price_options (S0 K sigma r : R) (days paths : Z) : M quote :=
  let* h := float_div_int 1 days in
  let const1 := exp ((r - 0.5 * sigma ^ 2) * h) in
  let* sqrt_h := math_sqrt h in
  let const2 := sigma * sqrt_h in
  let* ones := np_ones paths in
  let stock_price := map (Rmult S0) ones in
  let* stock_price_sum := np_zeros paths in
  let* (stock_price, stock_price_sum) :=
     for_days (Z.to_nat days) const1 const2 paths stock_price stock_price_sum in
  let stock_price_avg := map (fun x => x / IZR days) stock_price_sum in
  let* zeros := np_zeros paths in
  let r_factor := r_factor r h days in
  let euro_put :=
    fscale r_factor (np_mean (np_maximum zeros (map (Rminus K) stock_price))) in
  let asian_put :=
    fscale r_factor (np_mean (np_maximum zeros (map (Rminus K) stock_price_avg))) in
  let euro_call :=
    fscale r_factor (np_mean (np_maximum zeros (map (fun x => x - K) stock_price))) in
  let asian_call :=
    fscale r_factor (np_mean (np_maximum zeros (map (fun x => x - K) stock_price_avg))) in
  ret (euro_call, euro_put, asian_call, asian_put).

(** ** The cluster: IPython.parallel client, view and engines

    A task is a function with its argument tuple; its AsyncResult handle is
    its index in the cluster's task list.  Every engine is a process with
    its own [world].  [executed] logs, in order, the handles whose function
    an engine has run. *)

Record args : Type := mkArgs {
  arg_S : R; arg_K : R; arg_sigma : R; arg_r : R;
  arg_days : Z; arg_paths : Z
}.

Inductive status : Type :=
  | Pending
  | Finished (res : exn + quote).

Record task : Type := mkTask {
  task_fn : args -> M quote;
  task_args : args;
  task_status : status
}.

Record cluster : Type := mkCluster {
  engines : list world;
  tasks : list task;
  executed : list nat
}.

(** [view.apply_async(f, *args)]: queue the task, hand back its handle;
    nothing is waited for. *)
Definition apply_async (f : args -> M quote) (a : args) (c : cluster)
    : nat * cluster :=
  (length (tasks c),
   mkCluster (engines c) (tasks c ++ [mkTask f a Pending]) (executed c)).

(** Engine [e] picks up the task behind handle [h] and runs it to the end.
    A task that is already finished is never run again. *)
Definition run_task (e h : nat) (c : cluster) : cluster :=
  match engines c !! e, tasks c !! h with
  | Some w, Some t =>
      match task_status t with
      | Pending =>
          let (res, w') := task_fn t (task_args t) w in
          mkCluster (<[e := w']> (engines c))
                    (<[h := mkTask (task_fn t) (task_args t) (Finished res)]> (tasks c))
                    (executed c ++ [h])
      | Finished _ => c
      end
  | _, _ => c
  end.

(** What the load balancer does: a sequence of (engine, handle) pick-ups,
    in any order.  Engines may start on a task as soon as it is queued; a
    task never reads the client's state, so replaying all pick-ups at the
    wait yields the same engine states and results as interleaving them
    with the submissions. *)
Definition schedule : Type := list (nat * nat).

Definition run_schedule (sched : schedule) (c : cluster) : cluster :=
  fold_left (fun c eh => run_task (fst eh) (snd eh) c) sched c.

Definition is_finished (h : nat) (c : cluster) : bool :=
  match tasks c !! h with
  | Some t => match task_status t with Finished _ => true | Pending => false end
  | None => false
  end.

(** [rc.wait(handles)]: returns once every handle is finished; [None] when
    the engines never finish them all and the call blocks for ever. *)
Definition rc_wait (sched : schedule) (handles : list nat) (c : cluster)
    : option cluster :=
  let c' := run_schedule sched c in
  if forallb (fun h => is_finished h c') handles then Some c' else None.

(** What the client's code can do: return, raise, or block for ever. *)
Inductive outcome (A : Type) : Type :=
  | Returned (a : A)
  | Raised (e : exn)
  | Blocked.
Arguments Returned {A} a.
Arguments Raised {A} e.
Arguments Blocked {A}.

(** [ar.get()]: the task's result, or its exception re-raised in the
    client (wrapped as a remote error); blocks while the task is pending. *)
Definition ar_get (h : nat) (c : cluster) : outcome quote :=
  match tasks c !! h with
  | Some t =>
      match task_status t with
      | Finished (inr q) => Returned q
      | Finished (inl e) => Raised (RemoteError e)
      | Pending => Blocked
      end
  | None => Blocked
  end.

(** ** The notebook's grid cells *)

(** [np.linspace(start, stop, num)]. *)
Definition np_linspace (start stop : R) (num : nat) : list R :=
  map (fun i => start + INR i * ((stop - start) / INR (num - 1))) (seq 0 num).

(** The two nested submission loops: strikes outside, sigmas inside, each
    handle appended to [async_results]. *)
Definition submit_grid (f : args -> M quote) (price rate : R) (days paths : Z)
    (strike_vals sigma_vals : list R) (c : cluster) : list nat * cluster :=
  fold_left
    (fun st strike =>
       fold_left
         (fun st sigma =>
            let (ar, c') :=
              apply_async f (mkArgs price strike sigma rate days paths) (snd st) in
            (fst st ++ [ar], c'))
         sigma_vals st)
    strike_vals ([], c).

(** The task queued for one (strike, sigma) pair. *)
Definition grid_task (f : args -> M quote) (price rate : R) (days paths : Z)
    (ks : R * R) : task :=
  mkTask f (mkArgs price (fst ks) (snd ks) rate days paths) Pending.

(** A task of the running cluster is the submitted task, either untouched
    or run once on some engine state. *)
Definition same_or_ran (t1 t : task) : Prop :=
  task_fn t = task_fn t1 /\ task_args t = task_args t1
  /\ (task_status t = task_status t1
      \/ (task_status t1 = Pending
          /\ exists w, task_status t = Finished (fst (task_fn t1 (task_args t1) w)))).

(** The execution log names no handle twice, and only finished tasks. *)
Definition log_ok (c : cluster) : Prop :=
  NoDup (executed c) /\ forall h, h ∈ executed c -> is_finished h c = true.

(** Every handle of the list is picked up by an existing engine at some
    point of the schedule. *)
Definition covers (sched : schedule) (n_engines : nat) (handles : list nat) : Prop :=
  forall h, h ∈ handles -> exists e, (e, h) ∈ sched /\ (e < n_engines)%nat.

(** [results = [ar.get() for ar in async_results]]. *)
Fixpoint get_all (async_results : list nat) (c : cluster) : outcome (list quote) :=
  match async_results with
  | [] => Returned []
  | ar :: rest =>
      match ar_get ar c with
      | Returned q =>
          match get_all rest c with
          | Returned qs => Returned (q :: qs)
          | Raised e => Raised e
          | Blocked => Blocked
          end
      | Raised e => Raised e
      | Blocked => Blocked
      end
  end.

(** [np.empty(n, dtype=...)]: [n] cells nobody has written yet. *)
Definition np_empty (n : nat) : list (option quote) := replicate n None.

(** [prices[i] = tuple(price)]. *)
Definition setitem (i : nat) (q : quote) (prices : list (option quote))
    : exn + list (option quote) :=
  if decide (i < length prices)%nat then inr (<[i := Some q]> prices)
  else inl IndexError.

(** [for i, price in enumerate(results): prices[i] = tuple(price)], from
    index [i] on; [writes] logs the indices written, in order. *)
Fixpoint assemble (i : nat) (results : list quote)
    (prices : list (option quote)) (writes : list nat)
    : exn + (list (option quote) * list nat) :=
  match results with
  | [] => inr (prices, writes)
  | price :: rest =>
      match setitem i price prices with
      | inl e => inl e
      | inr prices' => assemble (S i) rest prices' (writes ++ [i])
      end
  end.

Record grid : Type := mkGrid {
  cells : list (option quote);
  n_rows : nat;
  n_cols : nat
}.

(** [prices.shape = (n_strikes, n_sigmas)]. *)
Definition set_shape (prices : list (option quote)) (m n : nat) : exn + grid :=
  if decide (m * n = length prices)%nat then inr (mkGrid prices m n)
  else inl ValueError.

(** [prices[i, j]] of the reshaped (row-major) array. *)
Definition grid_cell (g : grid) (i j : nat) : option quote :=
  if decide (i < n_rows g /\ j < n_cols g)%nat then
    match cells g !! (i * n_cols g + j)%nat with
    | Some c => c
    | None => None
    end
  else None.

(** The cells from submission to the reshaped array, run in order. *)
Definition run_grid (sched : schedule) (f : args -> M quote)
    (price rate : R) (days paths : Z) (n_strikes n_sigmas : nat)
    (strike_vals sigma_vals : list R) (c : cluster) : outcome grid :=
  let (async_results, c1) :=
    submit_grid f price rate days paths strike_vals sigma_vals c in
  match rc_wait sched async_results c1 with
  | None => Blocked
  | Some c2 =>
      match get_all async_results c2 with
      | Returned results =>
          match assemble 0 results (np_empty (n_strikes * n_sigmas)) [] with
          | inl e => Raised e
          | inr (prices, _) =>
              match set_shape prices n_strikes n_sigmas with
              | inl e => Raised e
              | inr g => Returned g
              end
          end
      | Raised e => Raised e
      | Blocked => Blocked
      end
  end.

(** [price_options] as the function handed to [apply_async]. *)
Definition price_options_task (a : args) : M quote :=
  price_options (arg_S a) (arg_K a) (arg_sigma a) (arg_r a)
                (arg_days a) (arg_paths a).

(** The notebook with its own constants. *)
Definition notebook (sched : schedule) (c : cluster) : outcome grid :=
  let price := 100.0 in
  let rate := 0.05 in
  let days := 260%Z in
  let paths := 10000%Z in
  let n_strikes := 6%nat in
  let min_strike := 90.0 in
  let max_strike := 110.0 in
  let n_sigmas := 5%nat in
  let min_sigma := 0.1 in
  let max_sigma := 0.4 in
  let strike_vals := np_linspace min_strike max_strike n_strikes in
  let sigma_vals := np_linspace min_sigma max_sigma n_sigmas in
  run_grid sched price_options_task price rate days paths n_strikes n_sigmas
           strike_vals sigma_vals c.

(** ** What the specification says the simulation computes

    One trajectory: the price after each step is the previous price times
    that step's growth factor; the running sum collects the price after
    every step, starting from nothing. *)

Fixpoint path_price (g : nat -> R) (s : R) (k : nat) : R :=
  match k with
  | O => s
  | S k' => path_price g s k' * g k'
  end.

Fixpoint path_sum (g : nat -> R) (s : R) (k : nat) : R :=
  match k with
  | O => 0
  | S k' => path_sum g s k' + path_price g s (S k')
  end.

(** Growth factor with drift [(r - sigma^2/2) h] and diffusion
    [sigma sqrt(h) z]. *)
Definition lognormal_growth (r sigma h z : R) : R :=
  exp ((r - sigma ^ 2 / 2) * h + sigma * sqrt h * z).

(** The draw that path [i] receives at step [j] when the loop starts in
    world [w] and each step reads [paths] draws. *)
Definition draw (w : world) (paths : nat) (j i : nat) : R :=
  rng w (rng_pos w + j * paths + i).

Definition growth_of (w : world) (r sigma : R) (days paths : Z) (i j : nat) : R :=
  lognormal_growth r sigma (1 / IZR days) (draw w (Z.to_nat paths) j i).

(** Price of path [i] after [k] steps, and the sum of its prices after
    steps 1..k. *)
Definition price_after (w : world) (S0 sigma r : R) (days paths : Z)
    (i k : nat) : R :=
  path_price (growth_of w r sigma days paths i) S0 k.

Definition sum_after (w : world) (S0 sigma r : R) (days paths : Z)
    (i k : nat) : R :=
  path_sum (growth_of w r sigma days paths i) S0 k.

Definition terminal_prices (w : world) (S0 sigma r : R) (days paths : Z) : vec :=
  map (fun i => price_after w S0 sigma r days paths i (Z.to_nat days))
      (seq 0 (Z.to_nat paths)).

Definition average_prices (w : world) (S0 sigma r : R) (days paths : Z) : vec :=
  map (fun i => sum_after w S0 sigma r days paths i (Z.to_nat days) / IZR days)
      (seq 0 (Z.to_nat paths)).

(** Mean payoff over the paths, discounted. *)
Definition discounted (c : R) (payoff : R -> R) (v : vec) : fval :=
  fscale c (np_mean (map payoff v)).

Definition call_payoff (K x : R) : R := Rmax 0 (x - K).
Definition put_payoff (K x : R) : R := Rmax 0 (K - x).

Definition quote_of (c K : R) (terminal average : vec) : quote :=
  (discounted c (call_payoff K) terminal,
   discounted c (put_payoff K) terminal,
   discounted c (call_payoff K) average,
   discounted c (put_payoff K) average).

(** The growth factor the loop computes for one draw. *)
Definition code_growth (const1 const2 z : R) : R := const1 * exp (const2 * z).



(** A fresh process whose generator delivers zeros. *)
Definition quiet_world : world := mkWorld (fun _ => 0) 0 0.

(** A fresh cluster with one engine and nothing submitted. *)
Definition fresh_cluster : cluster := mkCluster [quiet_world] [] [].

(** Engine 0 takes [n] tasks in reverse submission order. *)
Definition reverse_schedule (n : nat) : schedule :=
  map (fun h => (0%nat, h)) (reverse (seq 0 n)).

(** A task function that fails on the second run of its engine and
    returns a quote of nan otherwise. *)
Definition fails_second (a : args) : M quote :=
  fun w =>
    (if Nat.eqb (rng_pos w) 1 then inl (OtherError 42) else inr (NaN, NaN, NaN, NaN),
     mkWorld (rng w) (S (rng_pos w)) (allocated w)).

(** The 2 x 2 grid of [fails_second] tasks after submission, and after
    engine 0 has run them in reverse order. *)
Definition failing_submitted : cluster :=
  snd (submit_grid fails_second 100 0.05 260 10000 [90; 110] [0.1; 0.4]
         fresh_cluster).

Definition failing_run : cluster :=
  run_schedule (reverse_schedule 4) failing_submitted.

(** World after a successful call: [days * paths] draws consumed and
    [days + 3] arrays created. *)
Definition world_after (w : world) (days paths : Z) : world :=
  mkWorld (rng w) (rng_pos w + Z.to_nat days * Z.to_nat paths)
          (S (Z.to_nat days + S (S (allocated w)))).

(** ** The MPI monitoring notebook: [mpi_order]

    [ranks = view['rank']] lists the MPI rank of every engine, in engine
    order; [rank_indices = np.argsort(ranks)]. *)

(** [seq[x]] for a list and a non-negative index. *)
Definition getitem {A} (seq : list A) (x : nat) : exn + A :=
  match seq !! x with
  | Some a => inr a
  | None => inl IndexError
  end.

(** [[seq[x] for x in rank_indices]]. *)
Fixpoint mpi_order {A} (rank_indices : list nat) (seq : list A) : exn + list A :=
  match rank_indices with
  | [] => inr []
  | x :: rest =>
      match getitem seq x with
      | inl e => inl e
      | inr a =>
          match mpi_order rest seq with
          | inl e => inl e
          | inr l => inr (a :: l)
          end
      end
  end.

(** What [np.argsort] promises of its result: the indices of the array,
    each once, in an order that makes the values ascend.  The order among
    equal values is left open, as numpy's default sort leaves it. *)
Definition is_argsort (ranks : list Z) (idx : list nat) : Prop :=
  idx ≡ₚ seq 0 (length ranks)
  /\ Sorted Z.le ((fun i => nth i ranks 0%Z) <$> idx).

(** One such sort. *)
Definition rank_le (ranks : list Z) (i j : nat) : Prop :=
  (nth i ranks 0 <= nth j ranks 0)%Z.

#[global] Instance rank_le_dec (ranks : list Z) (i j : nat) :
  Decision (rank_le ranks i j).
Proof. unfold rank_le. apply _. Defined.

Definition np_argsort (ranks : list Z) : list nat :=
  merge_sort (rank_le ranks) (seq 0 (length ranks)).

(** ** The Wikipedia crawl notebook: [add_node] and [add_links]

    The graph is a networkx DiGraph: a dict from node to attribute dict and
    a dict from (source, target) to edge attribute dict.  Node labels are
    page titles. *)

Inductive pyerr : Type :=
  | TypeError
  | KeyError (key : string)
  | AttributeError
  | HTTPError (status : Z)
  | Builtin (e : exn).

(** An attribute value: a string or an integer. *)
Inductive attr : Type :=
  | AStr (s : string)
  | AInt (z : Z).

Record digraph : Type := mkGraph {
  g_node : gmap string (gmap string attr);
  g_edge : gmap (string * string) (gmap string attr)
}.

(** [dict.setdefault(k, v)]. *)
Definition setdefault (k : string) (v : attr) (m : gmap string attr)
    : gmap string attr :=
  match m !! k with
  | Some _ => m
  | None => <[k := v]> m
  end.

(** [G.add_node(n, **attr)]: a new node gets the attributes, an existing
    one has its attribute dict updated with them. *)
Definition nx_add_node (n : string) (a : gmap string attr) (g : digraph) : digraph :=
  mkGraph (<[n := a ∪ default ∅ (g_node g !! n)]> (g_node g)) (g_edge g).

(** The node is created, without attributes, if the graph lacks it. *)
Definition nx_ensure_node (n : string) (nodes : gmap string (gmap string attr))
    : gmap string (gmap string attr) :=
  match nodes !! n with
  | Some _ => nodes
  | None => <[n := ∅]> nodes
  end.

(** [G.add_edge(u, v, **attr)]: both ends are created when missing; the
    edge's attribute dict is created or updated. *)
Definition nx_add_edge (u v : string) (a : gmap string attr) (g : digraph) : digraph :=
  mkGraph (nx_ensure_node v (nx_ensure_node u (g_node g)))
          (<[(u, v) := a ∪ default ∅ (g_edge g !! (u, v))]> (g_edge g)).

(** [n in G]. *)
Definition has_node (g : digraph) (n : string) : bool :=
  bool_decide (is_Some (g_node g !! n)).

(** [add_node(g, label, **kwargs)].  A keyword argument named [g] or
    [label] collides with the function's own parameters when the call is
    bound, before the body runs.  (Keywords that collide with parameter
    names of networkx's own [add_node] are outside the model.) *)
Definition add_node (g : digraph) (label : string) (kwargs : gmap string attr)
    : pyerr + digraph :=
  match kwargs !! "g", kwargs !! "label" with
  | None, None =>
      let kwargs := setdefault "fill" (AStr "#ccc") kwargs in
      let kwargs := setdefault "color" (AStr "black") kwargs in
      inr (nx_add_node label (<["label" := AStr label]> kwargs) g)
  | _, _ => inl TypeError
  end.

(** [d = 200]. *)
Definition d : Z := 200.

(** The body of [for i, link in enumerate(links)]. *)
Definition add_link (src : string) (st : list string * digraph) (link : string)
    : pyerr + (list string * digraph) :=
  let (new_nodes, graph) := st in
  let visited :=
    if has_node graph link then inr (new_nodes, graph)
    else match add_node graph link ∅ with
         | inl e => inl e
         | inr graph' => inr (new_nodes ++ [link], graph')
         end in
  match visited with
  | inl e => inl e
  | inr (new_nodes, graph) =>
      inr (new_nodes, nx_add_edge src link {[ "distance" := AInt d ]} graph)
  end.

Fixpoint add_links_loop (src : string) (links : list string)
    (st : list string * digraph) : pyerr + (list string * digraph) :=
  match links with
  | [] => inr st
  | link :: rest =>
      match add_link src st link with
      | inl e => inl e
      | inr st' => add_links_loop src rest st'
      end
  end.

(** [add_links(graph, src, links)]: the new nodes, and the graph as the
    call leaves it. *)
Definition add_links (graph : digraph) (src : string) (links : list string)
    : pyerr + (list string * digraph) :=
  match add_node graph src ∅ with
  | inl e => inl e
  | inr graph' => add_links_loop src links ([], graph')
  end.

(** ** The Wikimedia download notebook: [api_request], [search_images]

    A parsed JSON document.  Numbers are integers here (the sizes the code
    looks at are byte counts); the fields of an object are listed in
    document order. *)

#[warnings="-register-all"]
Inductive json : Type :=
  | JNull
  | JBool (b : bool)
  | JNum (n : Z)
  | JStr (s : string)
  | JArr (items : list json)
  | JObj (fields : list (string * json)).

Fixpoint assoc (k : string) (fields : list (string * json)) : option json :=
  match fields with
  | [] => None
  | (k', v) :: rest => if decide (k = k') then Some v else assoc k rest
  end.

(** [j[k]] with a string key. *)
Definition getitem_key (k : string) (j : json) : pyerr + json :=
  match j with
  | JObj fields =>
      match assoc k fields with
      | Some v => inr v
      | None => inl (KeyError k)
      end
  | _ => inl TypeError
  end.

(** [j[0]]. *)
Definition getitem_0 (j : json) : pyerr + json :=
  match j with
  | JArr [] => inl (Builtin IndexError)
  | JArr (x :: _) => inr x
  | JStr EmptyString => inl (Builtin IndexError)
  | JStr (String c _) => inr (JStr (String c EmptyString))
  | JObj _ => inl (KeyError "0")
  | _ => inl TypeError
  end.

(** [list(j.values())]. *)
Definition values (j : json) : pyerr + list json :=
  match j with
  | JObj fields => inr (map snd fields)
  | _ => inl AttributeError
  end.

Fixpoint chars (s : string) : list json :=
  match s with
  | EmptyString => []
  | String c s' => JStr (String c EmptyString) :: chars s'
  end.

(** The items of [for r in j]. *)
Definition iterate (j : json) : pyerr + list json :=
  match j with
  | JArr items => inr items
  | JObj fields => inr (map (fun kv => JStr (fst kv)) fields)
  | JStr s => inr (chars s)
  | _ => inl TypeError
  end.

(** What the HTTP server answers: a status_code and, when the body parses, the
    JSON document. *)
Record response : Type := mkResponse {
  status_code : Z;
  body : option json
}.

(** The client's side of the network: the query parameters of every request
    made so far, and what was written to stdout. *)
Record net : Type := mkNet {
  requests : list (gmap string json);
  stdout : string
}.

Section Commons.

(** The server: given how many requests came before and the parameters, it
    fails at the connection or answers. *)
Variable server : nat -> gmap string json -> pyerr + response.

(** [api_request], called with the keyword arguments [kwargs]. *)
Definition api_request (kwargs : gmap string json) (st : net)
    : (pyerr + json) * net :=
  let st := mkNet (requests st) (stdout st +:+ ".") in
  let params := kwargs ∪ {[ "action" := JStr "query"; "format" := JStr "json" ]} in
  let st' := mkNet (requests st ++ [params]) (stdout st) in
  match server (length (requests st)) params with
  | inl e => (inl e, st')
  | inr r =>
      if decide (400 <= status_code r < 600)%Z then (inl (HTTPError (status_code r)), st')
      else match body r with
           | Some data => (inr data, st')
           | None => (inl (Builtin ValueError), st')
           end
  end.

(** The keyword arguments of the search call: the five explicit ones and
    [**continue_params], which must be a mapping that repeats none of
    them. *)
Definition search_kwargs (search : string) (limit : Z) (continue_params : json)
    : pyerr + gmap string json :=
  let explicit : gmap string json :=
    {[ "srnamespace" := JNum 6; "prop" := JStr "imageinfo";
       "list" := JStr "search"; "srsearch" := JStr search;
       "srlimit" := JNum (Z.min limit 50) ]} in
  match continue_params with
  | JObj fields =>
      if forallb (fun kv => bool_decide (explicit !! fst kv = None)) fields
      then inr (explicit ∪ list_to_map fields)
      else inl TypeError
  | _ => inl TypeError
  end.

(** [list(data['query']['pages'].values())[0]['imageinfo'][0]]; the
    first value is the first in document order (the search asks for one
    title, so there is one page). *)
Definition first_imageinfo (data : json) : pyerr + json :=
  match getitem_key "query" data with
  | inl e => inl e
  | inr q =>
      match getitem_key "pages" q with
      | inl e => inl e
      | inr pages =>
          match values pages with
          | inl e => inl e
          | inr [] => inl (Builtin IndexError)
          | inr (page :: _) =>
              match getitem_key "imageinfo" page with
              | inl e => inl e
              | inr infos => getitem_0 infos
              end
          end
      end
  end.

(** [x <= size_limit] for a JSON value [x]. *)
Definition le_limit (x : json) (size_limit : Z) : pyerr + bool :=
  match x with
  | JNum n => inr (n <=? size_limit)%Z
  | JBool b => inr (Z.b2z b <=? size_limit)%Z
  | _ => inl TypeError
  end.

(** [mime in ('image/png', 'image/jpeg')]. *)
Definition is_image_mime (mime : json) : bool :=
  match mime with
  | JStr s => bool_decide (s = "image/png" \/ s = "image/jpeg")
  | _ => false
  end.

(** [imageinfo['mime'] in ('image/png', 'image/jpeg') and
    imageinfo['size'] <= size_limit]. *)
Definition accepted (imageinfo : json) (size_limit : Z) : pyerr + bool :=
  match getitem_key "mime" imageinfo with
  | inl e => inl e
  | inr mime =>
      if is_image_mime mime
      then match getitem_key "size" imageinfo with
           | inl e => inl e
           | inr size => le_limit size size_limit
           end
      else inr false
  end.

(** A URL that the server reported for an image of an accepted type and
    size. *)
Definition from_accepted_image (size_limit : Z) (url : json) : Prop :=
  exists (k : nat) (params : gmap string json) (r : response)
         (data imageinfo size : json) (mime : string),
    server k params = inr r /\ body r = Some data
    /\ first_imageinfo data = inr imageinfo
    /\ getitem_key "mime" imageinfo = inr (JStr mime)
    /\ (mime = "image/png" \/ mime = "image/jpeg")
    /\ getitem_key "size" imageinfo = inr size
    /\ le_limit size size_limit = inr true
    /\ getitem_key "url" imageinfo = inr url.

(** How a loop body ends. *)
Inductive flow : Type :=
  | Next
  | Return
  | Failed (e : pyerr).

(** [for r in results: ...]: the URLs yielded, how the loop ended, and the
    remaining [limit]. *)
Fixpoint page_loop (size_limit : Z) (results : list json) (limit : Z) (st : net)
    : list json * flow * Z * net :=
  match results with
  | [] => ([], Next, limit, st)
  | r :: rest =>
      match getitem_key "title" r with
      | inl e => ([], Failed e, limit, st)
      | inr title =>
          let (res, st1) :=
            api_request {[ "prop" := JStr "imageinfo"; "titles" := title;
                           "iiprop" := JStr "url|size|mime" ]} st in
          match res with
          | inl e => ([], Failed e, limit, st1)
          | inr data =>
              match first_imageinfo data with
              | inl e => ([], Failed e, limit, st1)
              | inr imageinfo =>
                  match accepted imageinfo size_limit with
                  | inl e => ([], Failed e, limit, st1)
                  | inr false => page_loop size_limit rest limit st1
                  | inr true =>
                      match getitem_key "url" imageinfo with
                      | inl e => ([], Failed e, limit, st1)
                      | inr url =>
                          let limit := (limit - 1)%Z in
                          if (limit <=? 0)%Z then ([url], Return, limit, st1)
                          else
                            let '(ys, fl, limit', st2) :=
                              page_loop size_limit rest limit st1 in
                            (url :: ys, fl, limit', st2)
                      end
                  end
              end
          end
      end
  end.

(** How the generator ends: exhausted, with an exception, or still
    running when the fuel is spent. *)
Inductive ending : Type :=
  | Done
  | Raises (e : pyerr)
  | Running.

(** [while limit > 0: ...], at most [fuel] pages. *)
Fixpoint search_loop (fuel : nat) (search : string) (size_limit : Z)
    (limit : Z) (continue_params : json) (st : net)
    : list json * ending * net :=
  match fuel with
  | O => if (limit >? 0)%Z then ([], Running, st) else ([], Done, st)
  | S fuel' =>
      if (limit >? 0)%Z then
        match search_kwargs search limit continue_params with
        | inl e => ([], Raises e, st)
        | inr kwargs =>
            let (res, st1) := api_request kwargs st in
            match res with
            | inl e => ([], Raises e, st1)
            | inr data =>
                match (match getitem_key "query-continue" data with
                       | inl e => inl e
                       | inr qc => getitem_key "search" qc
                       end) with
                | inl e => ([], Raises e, st1)
                | inr continue_params =>
                    match getitem_key "query" data with
                    | inl e => ([], Raises e, st1)
                    | inr q =>
                        match (match getitem_key "searchinfo" q with
                               | inl e => inl e
                               | inr si => getitem_key "totalhits" si
                               end) with
                        | inl e => ([], Raises e, st1)
                        | inr total =>
                            match (match getitem_key "search" q with
                                   | inl e => inl e
                                   | inr results => iterate results
                                   end) with
                            | inl e => ([], Raises e, st1)
                            | inr results =>
                                let '(ys, fl, limit', st2) :=
                                  page_loop size_limit results limit st1 in
                                match fl with
                                | Failed e => (ys, Raises e, st2)
                                | Return => (ys, Done, st2)
                                | Next =>
                                    let '(ys', en, st3) :=
                                      search_loop fuel' search size_limit limit'
                                        continue_params st2 in
                                    (ys ++ ys', en, st3)
                                end
                            end
                        end
                    end
                end
            end
        end
      else ([], Done, st)
  end.

(** [search_images(search, limit, size_limit)], consumed to its end. *)
Definition search_images (fuel : nat) (search : string) (limit size_limit : Z)
    (st : net) : list json * ending * net :=
  search_loop fuel search size_limit limit (JObj []) st.

End Commons.

(** ** [download_images]: the file name of a URL *)

(** [s.rsplit(sep)] for a one-character separator: all the pieces, in
    order; never empty. *)
Fixpoint rsplit (sep : Ascii.ascii) (s : string) : list string :=
  match s with
  | EmptyString => [EmptyString]
  | String c rest =>
      if Ascii.eqb c sep then EmptyString :: rsplit sep rest
      else match rsplit sep rest with
           | [] => [String c EmptyString]
           | piece :: pieces => String c piece :: pieces
           end
  end.

(** [fname = url.rsplit('/')[-1]]. *)
Definition fname_of (url : string) : string :=
  List.last (rsplit "/"%char url) EmptyString.

(** ** Small instances *)


(** Three engines whose MPI ranks are 2, 0 and 1. *)
Definition three_ranks : list Z := [2; 0; 1]%Z.

(** The graph with no node. *)
Definition empty_graph : digraph := mkGraph ∅ ∅.

(** A server whose every answer is one page of a single hit, without a
    "query-continue" entry. *)
Definition one_page_server (k : nat) (params : gmap string json)
    : pyerr + response :=
  inr (mkResponse 200
         (Some (JObj [("query",
                       JObj [("searchinfo", JObj [("totalhits", JNum 1)]);
                             ("search", JArr [JObj [("title", JStr "File:Castle.png")]])])]))).

(** The empty graph after [add_links(graph, "A", ["B", "A", "B"])]. *)
Definition linked_graph : digraph :=
  match add_links empty_graph "A" ["B"; "A"; "B"] with
  | inr (_, g) => g
  | inl _ => empty_graph
  end.

(** * Properties of the simulator *)

Section ListFacts.

Lemma zipWith_map (f : R -> R -> R) (a b : nat -> R) (l : list nat) :
  zipWith f (map a l) (map b l) = map (fun i => f (a i) (b i)) l.
Proof.
  unfold zipWith. induction l as [|x l IH]; simpl; [reflexivity|].
  now rewrite IH.
Qed.

Lemma repeat_as_map (c : R) (n : nat) :
  repeat c n = map (fun _ => c) (seq 0 n).
Proof.
  generalize 0%nat. induction n as [|n IH]; intros s; simpl; [reflexivity|].
  now rewrite <- IH.
Qed.

Lemma map_seq_shift (f : nat -> R) (p n : nat) :
  map f (seq p n) = map (fun i => f (p + i)%nat) (seq 0 n).
Proof.
  revert p. induction n as [|n IH]; intros p; simpl; [reflexivity|].
  rewrite Nat.add_0_r. f_equal.
  rewrite (IH (S p)), <- seq_shift, map_map.
  apply map_ext. intros i. f_equal. lia.
Qed.

Lemma zipWith_repeat_l (f : R -> R -> R) (c : R) (v : vec) :
  zipWith f (repeat c (length v)) v = map (f c) v.
Proof.
  unfold zipWith. induction v as [|x v IH]; simpl; [reflexivity|].
  now rewrite IH.
Qed.

End ListFacts.

Section Trajectories.

Lemma path_price_ext (g g' : nat -> R) (s : R) (k : nat) :
  (forall j, (j < k)%nat -> g j = g' j) ->
  path_price g s k = path_price g' s k.
Proof.
  induction k as [|k IH]; intros Hg; simpl; [reflexivity|].
  rewrite IH by (intros; apply Hg; lia).
  now rewrite Hg by lia.
Qed.

Lemma path_sum_ext (g g' : nat -> R) (s : R) (k : nat) :
  (forall j, (j < k)%nat -> g j = g' j) ->
  path_sum g s k = path_sum g' s k.
Proof.
  induction k as [|k IH]; intros Hg; [reflexivity|].
  change (path_sum g s k + path_price g s (S k)
          = path_sum g' s k + path_price g' s (S k)).
  rewrite IH by (intros; apply Hg; lia).
  now rewrite (path_price_ext g g' s (S k)) by exact Hg.
Qed.

(** Peeling the first step instead of the last. *)
Lemma path_price_first (g : nat -> R) (s : R) (k : nat) :
  path_price g s (S k) = path_price (fun j => g (S j)) (s * g 0%nat) k.
Proof.
  induction k as [|k IH]; [reflexivity|].
  change (path_price g s (S k) * g (S k)
          = path_price (fun j => g (S j)) (s * g 0%nat) k * g (S k)).
  now rewrite IH.
Qed.

Lemma path_sum_first (g : nat -> R) (s : R) (k : nat) :
  path_sum g s (S k)
  = s * g 0%nat + path_sum (fun j => g (S j)) (s * g 0%nat) k.
Proof.
  induction k as [|k IH].
  - simpl. lra.
  - change (path_sum g s (S k) + path_price g s (S (S k))
            = s * g 0%nat
              + (path_sum (fun j => g (S j)) (s * g 0%nat) k
                 + path_price (fun j => g (S j)) (s * g 0%nat) (S k))).
    rewrite IH, (path_price_first g s (S k)). lra.
Qed.

End Trajectories.

Section Loop.

Lemma for_days_step (n : nat) (c1 c2 : R) (P : nat) (a b : nat -> R) (w : world) :
  for_days (S n) c1 c2 (Z.of_nat P) (map a (seq 0 P)) (map b (seq 0 P)) w
  = for_days n c1 c2 (Z.of_nat P)
      (map (fun i => a i * code_growth c1 c2 (rng w (rng_pos w + i))) (seq 0 P))
      (map (fun i => b i + a i * code_growth c1 c2 (rng w (rng_pos w + i))) (seq 0 P))
      (mkWorld (rng w) (rng_pos w + P) (S (allocated w))).
Proof.
  cbn [for_days]. unfold bind, standard_normal.
  replace (Z.of_nat P <? 0)%Z with false by (symmetry; apply Z.ltb_ge; lia).
  rewrite Nat2Z.id, (map_seq_shift (rng w)). unfold np_exp.
  rewrite !map_map, !zipWith_map. reflexivity.
Qed.

Lemma for_days_closed (n : nat) (c1 c2 : R) (P : nat) :
  forall (a b : nat -> R) (w : world),
  for_days n c1 c2 (Z.of_nat P) (map a (seq 0 P)) (map b (seq 0 P)) w
  = (inr (map (fun i => path_price (fun j => code_growth c1 c2 (draw w P j i)) (a i) n)
              (seq 0 P),
          map (fun i => b i + path_sum (fun j => code_growth c1 c2 (draw w P j i)) (a i) n)
              (seq 0 P)),
     mkWorld (rng w) (rng_pos w + n * P) (n + allocated w)).
Proof.
  induction n as [|n IH]; intros a b w.
  - cbn [for_days]. unfold ret. f_equal.
    + do 2 f_equal. apply map_ext. intros i. simpl. lra.
    + destruct w as [g p k]. simpl. f_equal. lia.
  - rewrite for_days_step, IH. cbn [rng rng_pos allocated]. f_equal.
    + f_equal. f_equal.
      * apply map_ext. intros i. rewrite path_price_first.
        unfold draw. cbn [rng rng_pos]. rewrite Nat.mul_0_l, Nat.add_0_r.
        apply path_price_ext. intros j _. do 3 f_equal. simpl. lia.
      * apply map_ext. intros i. rewrite path_sum_first.
        unfold draw. cbn [rng rng_pos]. rewrite Nat.mul_0_l, Nat.add_0_r.
        rewrite Rplus_assoc. f_equal. f_equal.
        apply path_sum_ext. intros j _. do 3 f_equal. simpl. lia.
    + f_equal; simpl; lia.
Qed.

(** The loop run for [k + m] steps is the loop run for [k] steps, then
    for [m] more from the state reached. *)
Lemma for_days_app (k m : nat) (c1 c2 : R) (paths : Z) :
  forall (sp sps : vec) (w : world),
  for_days (k + m) c1 c2 paths sp sps w
  = (let* (sp', sps') := for_days k c1 c2 paths sp sps in
     for_days m c1 c2 paths sp' sps') w.
Proof.
  induction k as [|k IH]; intros sp sps w.
  - reflexivity.
  - cbn [Nat.add for_days]. unfold bind.
    destruct (standard_normal paths w) as [[e|z] w']; [reflexivity|].
    rewrite IH. reflexivity.
Qed.

End Loop.

Section Simulator.

Lemma np_maximum_zeros (n : nat) (v : vec) :
  length v = n -> np_maximum (repeat 0 n) v = map (Rmax 0) v.
Proof. intros <-. apply zipWith_repeat_l. Qed.

Lemma code_growth_lognormal (r sigma h z : R) :
  0 <= h ->
  code_growth (exp ((r - 0.5 * sigma ^ 2) * h)) (sigma * sqrt h) z
  = lognormal_growth r sigma h z.
Proof.
  intros _. unfold code_growth, lognormal_growth.
  rewrite <- exp_plus. f_equal. lra.
Qed.

Lemma inv_days_pos (days : Z) : (0 < days)%Z -> 0 < 1 / IZR days.
Proof.
  intros H. apply Rdiv_lt_0_compat; [lra|]. now apply IZR_lt.
Qed.

(** On [days >= 1] and [paths >= 0] the call returns, and what it returns
    is the quote of the specification's trajectories. *)
Lemma price_options_returns (S0 K sigma r : R) (days paths : Z) (w : world) :
  (0 < days)%Z -> (0 <= paths)%Z ->
  price_options S0 K sigma r days paths w
  = (inr (quote_of (r_factor r (1 / IZR days) days) K
            (terminal_prices w S0 sigma r days paths)
            (average_prices w S0 sigma r days paths)),
     world_after w days paths).
Proof.
  intros Hd Hp. pose proof (inv_days_pos days Hd) as Hh.
  unfold price_options, bind at 1. unfold float_div_int.
  replace (days =? 0)%Z with false by (symmetry; apply Z.eqb_neq; lia).
  unfold ret at 1. unfold bind at 1. unfold math_sqrt.
  destruct (Rlt_dec (1 / IZR days) 0) as [Hneg|_]; [lra|].
  unfold ret at 1. unfold bind at 1. unfold np_ones, np_zeros, np_full.
  replace (paths <? 0)%Z with false by (symmetry; apply Z.ltb_ge; lia).
  unfold bind at 1. unfold bind at 1.
  rewrite !repeat_as_map, map_map.
  rewrite <- (Z2Nat.id paths) at 1 by lia.
  rewrite for_days_closed.
  cbn [rng rng_pos allocated alloc]. unfold ret.
  set (P := Z.to_nat paths). set (n := Z.to_nat days).
  assert (Ht : map (fun i => path_price
                     (fun j => code_growth (exp ((r - 0.5 * sigma ^ 2) * (1 / IZR days)))
                                 (sigma * sqrt (1 / IZR days))
                                 (draw (alloc (alloc w)) P j i)) (S0 * 1) n) (seq 0 P)
               = terminal_prices w S0 sigma r days paths).
  { unfold terminal_prices, price_after. apply map_ext. intros i.
    rewrite Rmult_1_r. apply path_price_ext. intros j _.
    rewrite code_growth_lognormal by lra. reflexivity. }
  assert (Ha : map (fun x => x / IZR days)
                 (map (fun i => 0 + path_sum
                     (fun j => code_growth (exp ((r - 0.5 * sigma ^ 2) * (1 / IZR days)))
                                 (sigma * sqrt (1 / IZR days))
                                 (draw (alloc (alloc w)) P j i)) (S0 * 1) n) (seq 0 P))
               = average_prices w S0 sigma r days paths).
  { unfold average_prices, sum_after. rewrite map_map. apply map_ext. intros i.
    rewrite Rplus_0_l, Rmult_1_r. f_equal. apply path_sum_ext. intros j _.
    rewrite code_growth_lognormal by lra. reflexivity. }
  rewrite Ht, Ha.
  assert (Lt : length (terminal_prices w S0 sigma r days paths) = P)
    by (unfold terminal_prices; now rewrite length_map, length_seq).
  assert (La : length (average_prices w S0 sigma r days paths) = P)
    by (unfold average_prices; now rewrite length_map, length_seq).
  rewrite <- repeat_as_map. unfold bind. cbv beta iota.
  rewrite !np_maximum_zeros by (now rewrite length_map).
  rewrite !map_map. reflexivity.
Qed.

End Simulator.

Section Means.


















End Means.

Section Quotes.

Variables (S0 K sigma r : R) (days paths : Z) (w : world).


End Quotes.

Section Strikes.

Variables (S0 sigma r : R) (days paths : Z) (w : world).


End Strikes.

Section Evolution.

Variables (S0 K sigma r : R) (days paths : Z) (w : world).







End Evolution.

Section ZeroVolatility.








End ZeroVolatility.

Section Validation.







(** The same for a non-positive strike, a negative volatility and an
    empty ensemble. *)
Lemma other_invalid_parameters_are_not_rejected :
  (exists q, fst (price_options 1 (-1) 0 0 1 1 quiet_world) = inr q)
  /\ (exists q, fst (price_options 1 1 (-1) 0 1 1 quiet_world) = inr q)
  /\ fst (price_options 1 1 0 0 1 0 quiet_world) = inr (NaN, NaN, NaN, NaN).
Proof.
  repeat split; try eexists; now rewrite price_options_returns by lia.
Qed.

End Validation.

Section Parity.








End Parity.


(** * Properties of the dispatcher *)

Section Submission.

Variables (f : args -> M quote) (price rate : R) (days paths : Z).

Local Abbreviation grid_task := (grid_task f price rate days paths).

Lemma submit_row (strike : R) (sigma_vals : list R) :
  forall (hs : list nat) (c : cluster),
  fold_left
    (fun st sigma =>
       let (ar, c') :=
         apply_async f (mkArgs price strike sigma rate days paths) (snd st) in
       (fst st ++ [ar], c'))
    sigma_vals (hs, c)
  = (hs ++ seq (length (tasks c)) (length sigma_vals),
     mkCluster (engines c)
       (tasks c ++ map grid_task (map (fun y => (strike, y)) sigma_vals))
       (executed c)).
Proof.
  induction sigma_vals as [|sigma l IH]; intros hs c.
  - simpl. rewrite !app_nil_r. now destruct c.
  - cbn [fold_left apply_async fst snd]. rewrite IH.
    cbn [tasks engines executed length map seq].
    rewrite length_app, <- !app_assoc. cbn [length app].
    now rewrite Nat.add_1_r.
Qed.

Lemma submit_grid_spec (strike_vals sigma_vals : list R) (c : cluster) :
  submit_grid f price rate days paths strike_vals sigma_vals c
  = (seq (length (tasks c)) (length strike_vals * length sigma_vals),
     mkCluster (engines c)
       (tasks c ++ map grid_task (list_prod strike_vals sigma_vals))
       (executed c)).
Proof.
  unfold submit_grid.
  enough (G : forall hs c,
    fold_left
      (fun st strike =>
         fold_left
           (fun st sigma =>
              let (ar, c') :=
                apply_async f (mkArgs price strike sigma rate days paths) (snd st) in
              (fst st ++ [ar], c'))
           sigma_vals st)
      strike_vals (hs, c)
    = (hs ++ seq (length (tasks c)) (length strike_vals * length sigma_vals),
       mkCluster (engines c)
         (tasks c ++ map grid_task (list_prod strike_vals sigma_vals))
         (executed c))) by (now rewrite G).
  clear c. induction strike_vals as [|strike l IH]; intros hs c.
  - simpl. rewrite !app_nil_r. now destruct c.
  - cbn [fold_left]. rewrite submit_row, IH.
    cbn [tasks engines executed length list_prod Nat.mul].
    rewrite length_app, !length_map, map_app, <- !app_assoc, seq_app.
    reflexivity.
Qed.

End Submission.

Section Assembly.

Lemma assemble_spec (results : list quote) :
  forall (i : nat) (prices : list (option quote)) (writes : list nat),
  (i + length results <= length prices)%nat ->
  assemble i results prices writes
  = inr (take i prices ++ map Some results ++ drop (i + length results) prices,
         writes ++ seq i (length results)).
Proof.
  induction results as [|q rest IH]; intros i prices writes Hlen.
  - cbn [assemble length map seq app]. rewrite Nat.add_0_r, take_drop, app_nil_r.
    reflexivity.
  - cbn [length] in Hlen. cbn [assemble]. unfold setitem.
    destruct (decide (i < length prices)%nat) as [Hi|Hi]; [|lia].
    rewrite IH by (rewrite length_insert; lia).
    cbn [length map seq app]. rewrite <- app_assoc. cbn [app]. f_equal. f_equal.
    rewrite (take_S_r _ _ (Some q)) by (now apply list_lookup_insert_eq).
    rewrite take_insert_ge by lia.
    rewrite drop_insert_lt by lia.
    rewrite <- app_assoc. cbn [app].
    now replace (S i + length rest)%nat with (i + S (length rest))%nat by lia.
Qed.

Lemma assemble_full (results : list quote) (n : nat) :
  length results = n ->
  assemble 0 results (np_empty n) [] = inr (map Some results, seq 0 n).
Proof.
  intros Hn. unfold np_empty. rewrite assemble_spec
    by (rewrite length_replicate; lia).
  rewrite take_0, drop_ge by (rewrite length_replicate; lia).
  rewrite app_nil_r, Hn. reflexivity.
Qed.

Lemma grid_cell_full (results : list quote) (m n i j : nat) (q : quote) :
  (i < m)%nat -> (j < n)%nat ->
  results !! (i * n + j)%nat = Some q ->
  grid_cell (mkGrid (map Some results) m n) i j = Some q.
Proof.
  intros Hi Hj Hq. unfold grid_cell. cbn [n_rows n_cols cells].
  destruct (decide (i < m /\ j < n)%nat) as [_|Hn]; [|lia].
  now rewrite list_lookup_fmap, Hq.
Qed.

Lemma list_prod_lookup {A B} (l : list A) (l' : list B) (i j : nat) (x : A) (y : B) :
  l !! i = Some x -> l' !! j = Some y ->
  list_prod l l' !! (i * length l' + j)%nat = Some (x, y).
Proof.
  revert i. induction l as [|a l IH]; intros i Hx Hy; [discriminate|].
  cbn [list_prod]. destruct i as [|i].
  - injection Hx as ->. cbn [Nat.mul Nat.add].
    rewrite lookup_app_l by (rewrite length_map; now apply lookup_lt_Some in Hy).
    now rewrite list_lookup_fmap, Hy.
  - cbn [lookup list_lookup] in Hx.
    rewrite lookup_app_r by (rewrite length_map; cbn [Nat.mul]; lia).
    rewrite length_map.
    replace (S i * length l' + j - length l')%nat with (i * length l' + j)%nat
      by (cbn [Nat.mul]; lia).
    now apply IH.
Qed.

End Assembly.

Section Engines.

Lemma run_task_engines (e h : nat) (c : cluster) :
  length (engines (run_task e h c)) = length (engines c).
Proof.
  unfold run_task.
  destruct (engines c !! e) as [w|]; [|reflexivity].
  destruct (tasks c !! h) as [t|]; [|reflexivity].
  destruct (task_status t); [|reflexivity].
  destruct (task_fn t (task_args t) w). cbn [engines]. apply length_insert.
Qed.

Lemma run_task_tasks (e h : nat) (c : cluster) :
  length (tasks (run_task e h c)) = length (tasks c).
Proof.
  unfold run_task.
  destruct (engines c !! e) as [w|]; [|reflexivity].
  destruct (tasks c !! h) as [t|]; [|reflexivity].
  destruct (task_status t); [|reflexivity].
  destruct (task_fn t (task_args t) w). cbn [tasks]. apply length_insert.
Qed.

Lemma run_task_finishes (e h : nat) (c : cluster) :
  (e < length (engines c))%nat -> (h < length (tasks c))%nat ->
  is_finished h (run_task e h c) = true.
Proof.
  intros He Hh. unfold run_task.
  destruct (lookup_lt_is_Some_2 _ _ He) as [w ->].
  destruct (lookup_lt_is_Some_2 _ _ Hh) as [t Ht]. rewrite Ht.
  destruct (task_status t) eqn:Est.
  - destruct (task_fn t (task_args t) w). unfold is_finished. cbn [tasks].
    now rewrite list_lookup_insert_eq.
  - unfold is_finished. now rewrite Ht, Est.
Qed.

Lemma run_task_keeps_finished (e h h' : nat) (c : cluster) :
  is_finished h' c = true -> is_finished h' (run_task e h c) = true.
Proof.
  intros Hf. unfold run_task.
  destruct (engines c !! e) as [w|]; [|exact Hf].
  destruct (tasks c !! h) as [t|] eqn:Ht; [|exact Hf].
  destruct (task_status t) eqn:Est; [|exact Hf].
  destruct (task_fn t (task_args t) w). unfold is_finished in *. cbn [tasks].
  destruct (decide (h = h')) as [->|Hne].
  - rewrite list_lookup_insert_eq; [reflexivity|]. now apply lookup_lt_Some in Ht.
  - now rewrite list_lookup_insert_ne.
Qed.

Lemma run_schedule_engines (sched : schedule) :
  forall c, length (engines (run_schedule sched c)) = length (engines c).
Proof.
  unfold run_schedule. induction sched as [|[e h] l IH]; intros c; [reflexivity|].
  cbn [fold_left fst snd]. now rewrite IH, run_task_engines.
Qed.

Lemma run_schedule_tasks (sched : schedule) :
  forall c, length (tasks (run_schedule sched c)) = length (tasks c).
Proof.
  unfold run_schedule. induction sched as [|[e h] l IH]; intros c; [reflexivity|].
  cbn [fold_left fst snd]. now rewrite IH, run_task_tasks.
Qed.

Lemma run_schedule_keeps_finished (sched : schedule) (h : nat) :
  forall c, is_finished h c = true -> is_finished h (run_schedule sched c) = true.
Proof.
  unfold run_schedule. induction sched as [|[e h'] l IH]; intros c Hf; [exact Hf|].
  cbn [fold_left fst snd]. apply IH. now apply run_task_keeps_finished.
Qed.

Lemma run_schedule_finishes (sched : schedule) (e h : nat) :
  forall c, (e, h) ∈ sched ->
  (e < length (engines c))%nat -> (h < length (tasks c))%nat ->
  is_finished h (run_schedule sched c) = true.
Proof.
  induction sched as [|[e' h'] l IH]; intros c Hin He Hh.
  - now apply elem_of_nil in Hin.
  - apply elem_of_cons in Hin as [E|Hin].
    + injection E as <- <-.
      apply (run_schedule_keeps_finished l h (run_task e h c)).
      now apply run_task_finishes.
    + apply (IH (run_task e' h' c) Hin).
      * now rewrite run_task_engines.
      * now rewrite run_task_tasks.
Qed.

(** A schedule that covers the handles lets [rc.wait] return. *)
Lemma rc_wait_returns (sched : schedule) (handles : list nat) (c : cluster) :
  covers sched (length (engines c)) handles ->
  (forall h, h ∈ handles -> (h < length (tasks c))%nat) ->
  rc_wait sched handles c = Some (run_schedule sched c).
Proof.
  intros Hcov Hlt. unfold rc_wait.
  replace (forallb (fun h => is_finished h (run_schedule sched c)) handles) with true;
    [reflexivity|].
  symmetry. apply forallb_forall. intros h Hin.
  apply list_elem_of_In in Hin.
  destruct (Hcov h Hin) as (e & He & Hlt').
  apply (run_schedule_finishes sched e h); auto.
Qed.

Lemma same_or_ran_refl (t : task) : same_or_ran t t.
Proof. unfold same_or_ran. auto. Qed.

Lemma run_task_tracks (e h : nat) (c1 c : cluster) :
  Forall2 same_or_ran (tasks c1) (tasks c) ->
  Forall2 same_or_ran (tasks c1) (tasks (run_task e h c)).
Proof.
  intros HF. unfold run_task.
  destruct (engines c !! e) as [w|]; [|exact HF].
  destruct (tasks c !! h) as [t|] eqn:Ht; [|exact HF].
  destruct (task_status t) eqn:Est; [|exact HF].
  destruct (task_fn t (task_args t) w) as [res w'] eqn:Erun. cbn [tasks].
  destruct (Forall2_lookup_r _ _ _ _ _ HF Ht) as (t1 & Ht1 & Hfn & Hargs & Hst).
  rewrite <- (list_insert_id (tasks c1) h t1) by exact Ht1.
  apply Forall2_insert; [exact HF|].
  unfold same_or_ran. cbn [task_fn task_args task_status].
  split; [exact Hfn|]. split; [exact Hargs|].
  right. split.
  - destruct Hst as [E|(E & _)]; [now rewrite <- E|exact E].
  - exists w. now rewrite <- Hfn, <- Hargs, Erun.
Qed.

Lemma run_schedule_tracks (sched : schedule) (c1 : cluster) :
  forall c, Forall2 same_or_ran (tasks c1) (tasks c) ->
  Forall2 same_or_ran (tasks c1) (tasks (run_schedule sched c)).
Proof.
  unfold run_schedule. induction sched as [|[e h] l IH]; intros c HF; [exact HF|].
  cbn [fold_left fst snd]. apply IH. now apply run_task_tracks.
Qed.

Lemma run_task_log_ok (e h : nat) (c : cluster) :
  log_ok c -> log_ok (run_task e h c).
Proof.
  intros [Hnd Hfin].
  pose proof (fun h' => run_task_keeps_finished e h h' c) as Hkeep.
  unfold run_task in *.
  destruct (engines c !! e) as [w|] eqn:He; [|now split].
  destruct (tasks c !! h) as [t|] eqn:Ht; [|now split].
  destruct (task_status t) eqn:Est; [|now split].
  destruct (task_fn t (task_args t) w) as [res w'].
  split; cbn [executed].
  - apply NoDup_app. split; [exact Hnd|]. split; [|apply NoDup_singleton].
    intros x Hx Hx'. apply list_elem_of_singleton in Hx' as ->.
    specialize (Hfin h Hx). unfold is_finished in Hfin.
    rewrite Ht, Est in Hfin. discriminate.
  - intros x Hx. apply elem_of_app in Hx as [Hx|Hx].
    + apply Hkeep. now apply Hfin.
    + apply list_elem_of_singleton in Hx as ->. unfold is_finished. cbn [tasks].
      rewrite list_lookup_insert_eq; [reflexivity|]. now apply lookup_lt_Some in Ht.
Qed.

Lemma run_schedule_log_ok (sched : schedule) :
  forall c, log_ok c -> log_ok (run_schedule sched c).
Proof.
  unfold run_schedule. induction sched as [|[e h] l IH]; intros c Hc; [exact Hc|].
  cbn [fold_left fst snd]. apply IH. now apply run_task_log_ok.
Qed.

End Engines.

Section Retrieval.

Lemma get_all_total (hs : list nat) (c : cluster) :
  (forall h, h ∈ hs -> exists q, ar_get h c = Returned q) ->
  exists qs, get_all hs c = Returned qs
             /\ Forall2 (fun h q => ar_get h c = Returned q) hs qs.
Proof.
  induction hs as [|h hs IH]; intros Hall.
  - exists []. split; [reflexivity|constructor].
  - destruct (Hall h) as [q Hq]; [apply elem_of_cons; now left|].
    destruct IH as (qs & Hqs & HF).
    { intros h' Hin. apply Hall. apply elem_of_cons. now right. }
    exists (q :: qs). cbn [get_all]. rewrite Hq, Hqs.
    split; [reflexivity|now constructor].
Qed.

Lemma get_all_returned (hs : list nat) (c : cluster) :
  forall qs, get_all hs c = Returned qs ->
  Forall2 (fun h q => ar_get h c = Returned q) hs qs.
Proof.
  induction hs as [|h hs IH]; intros qs E; cbn [get_all] in E.
  - injection E as <-. constructor.
  - destruct (ar_get h c) as [q| |] eqn:Hq; try discriminate.
    destruct (get_all hs c) as [qs'| |]; try discriminate.
    injection E as <-. constructor; [exact Hq|now apply IH].
Qed.

(** The comprehension raises what the first failing handle raises. *)
Lemma get_all_raises (hs : list nat) (c : cluster) :
  (forall h, h ∈ hs -> ar_get h c <> Blocked) ->
  (exists h e, h ∈ hs /\ ar_get h c = Raised e) ->
  exists pre h post e,
    hs = pre ++ h :: post
    /\ (forall h', h' ∈ pre -> exists q, ar_get h' c = Returned q)
    /\ ar_get h c = Raised e
    /\ get_all hs c = Raised e.
Proof.
  induction hs as [|h hs IH]; intros Hnb (hf & ef & Hin & Hf).
  - now apply elem_of_nil in Hin.
  - destruct (ar_get h c) as [q|e|] eqn:Hq.
    + apply elem_of_cons in Hin as [->|Hin]; [congruence|].
      destruct IH as (pre & h0 & post & e & -> & Hpre & Hh0 & Hget).
      { intros h' Hin'. apply Hnb. apply elem_of_cons. now right. }
      { now exists hf, ef. }
      exists (h :: pre), h0, post, e. cbn [get_all]. rewrite Hq, Hget.
      repeat split; try assumption.
      intros h' Hin'. apply elem_of_cons in Hin' as [->|Hin']; eauto.
    + exists [], h, hs, e. cbn [get_all]. rewrite Hq.
      repeat split; try assumption.
      intros h' Hin'. now apply elem_of_nil in Hin'.
    + exfalso. apply (Hnb h); [apply elem_of_cons; now left|exact Hq].
Qed.

Lemma finished_not_blocked (h : nat) (c : cluster) :
  is_finished h c = true -> ar_get h c <> Blocked.
Proof.
  unfold is_finished, ar_get. destruct (tasks c !! h) as [t|]; [|discriminate].
  destruct (task_status t) as [|[e|q]]; discriminate.
Qed.

(** A task that was pending at submission and is finished now was run on
    some engine state, and [get] hands back what that run produced. *)
Lemma ar_get_of_ran (c1 c2 : cluster) (h : nat) (t1 : task) :
  Forall2 same_or_ran (tasks c1) (tasks c2) ->
  tasks c1 !! h = Some t1 -> task_status t1 = Pending ->
  is_finished h c2 = true ->
  exists w,
    ar_get h c2 = match fst (task_fn t1 (task_args t1) w) with
                  | inr q => Returned q
                  | inl e => Raised (RemoteError e)
                  end.
Proof.
  intros HF Ht1 Hpend Hfin.
  destruct (Forall2_lookup_l _ _ _ _ _ HF Ht1) as (t & Ht & _ & _ & Hst).
  unfold is_finished in Hfin. unfold ar_get. rewrite Ht in *.
  destruct Hst as [E|(_ & w & E)].
  - rewrite E, Hpend in Hfin. discriminate.
  - exists w. rewrite E. now destruct (fst (task_fn t1 (task_args t1) w)).
Qed.

Lemma rc_wait_inv (sched : schedule) (handles : list nat) (c c2 : cluster) :
  rc_wait sched handles c = Some c2 ->
  c2 = run_schedule sched c /\ forall h, h ∈ handles -> is_finished h c2 = true.
Proof.
  unfold rc_wait. intros E.
  destruct (forallb _ handles) eqn:Hall; [|discriminate].
  injection E as <-. split; [reflexivity|].
  intros h Hin. rewrite forallb_forall in Hall. apply Hall.
  now apply list_elem_of_In.
Qed.

End Retrieval.

Section Dispatcher.

Variables (f : args -> M quote) (sched : schedule).
Variables (price rate : R) (days paths : Z).
Variables (strike_vals sigma_vals : list R) (c : cluster).

Local Abbreviation m := (length strike_vals).
Local Abbreviation n := (length sigma_vals).
Local Abbreviation handles := (seq (length (tasks c)) (m * n)).
Local Abbreviation c1 :=
  (mkCluster (engines c)
     (tasks c ++ map (grid_task f price rate days paths)
                     (list_prod strike_vals sigma_vals))
     (executed c)).

Lemma handle_in_range (h : nat) :
  h ∈ handles -> (h < length (tasks c1))%nat.
Proof.
  intros Hin. apply list_elem_of_In, in_seq in Hin.
  cbn [tasks]. rewrite length_app, length_map, length_prod. lia.
Qed.

Lemma handle_task (k : nat) (ks : R * R) :
  list_prod strike_vals sigma_vals !! k = Some ks ->
  tasks c1 !! (length (tasks c) + k)%nat
  = Some (grid_task f price rate days paths ks).
Proof.
  intros Hk. cbn [tasks]. rewrite lookup_app_r by lia.
  replace (length (tasks c) + k - length (tasks c))%nat with k by lia.
  now rewrite list_lookup_fmap, Hk.
Qed.

Lemma submitted_tracks_itself : Forall2 same_or_ran (tasks c1) (tasks c1).
Proof. apply Forall_Forall2_diag, Forall_forall. intros t _. apply same_or_ran_refl. Qed.

Lemma submitted_log_ok : log_ok c -> log_ok c1.
Proof.
  intros [Hnd Hfin]. split; [exact Hnd|]. cbn [executed].
  intros h Hin. specialize (Hfin h Hin). unfold is_finished in *. cbn [tasks].
  destruct (tasks c !! h) as [t|] eqn:Ht; [|discriminate].
  rewrite lookup_app_l by (now apply lookup_lt_Some in Ht). now rewrite Ht.
Qed.

(** What [get] returns for the handle of grid point [k], once finished. *)
Lemma handle_result (c2 : cluster) (k : nat) (strike sigma : R) :
  c2 = run_schedule sched c1 ->
  list_prod strike_vals sigma_vals !! k = Some (strike, sigma) ->
  is_finished (length (tasks c) + k) c2 = true ->
  exists w,
    ar_get (length (tasks c) + k) c2
    = match fst (f (mkArgs price strike sigma rate days paths) w) with
      | inr q => Returned q
      | inl e => Raised (RemoteError e)
      end.
Proof.
  intros -> Hk Hfin.
  apply (ar_get_of_ran c1 _ _ (grid_task f price rate days paths (strike, sigma)));
    [|now apply handle_task|reflexivity|exact Hfin].
  apply run_schedule_tracks, submitted_tracks_itself.
Qed.

(** C2.  For non-empty [strike_values] (length m) and [sigma_values]
    (length n): one task per pair is submitted, strikes outside and
    sigmas inside; whatever order the engines take the tasks in, the call
    returns a grid of m x n cells, every flat index written exactly once,
    and cell (i, j) holds a quote that [f] computed from
    (strike_values[i], sigma_values[j]). *)
Theorem run_grid_fills_every_cell :
  strike_vals <> [] -> sigma_vals <> [] ->
  covers sched (length (engines c)) handles ->
  (forall strike sigma w,
     strike ∈ strike_vals -> sigma ∈ sigma_vals ->
     exists q, fst (f (mkArgs price strike sigma rate days paths) w) = inr q) ->
  submit_grid f price rate days paths strike_vals sigma_vals c = (handles, c1)
  /\ exists (c2 : cluster) (results : list quote) (g : grid),
       rc_wait sched handles c1 = Some c2
       /\ get_all handles c2 = Returned results
       /\ assemble 0 results (np_empty (m * n)) [] = inr (cells g, seq 0 (m * n))
       /\ run_grid sched f price rate days paths m n strike_vals sigma_vals c
          = Returned g
       /\ n_rows g = m /\ n_cols g = n /\ length (cells g) = (m * n)%nat
       /\ forall i j strike sigma,
            strike_vals !! i = Some strike -> sigma_vals !! j = Some sigma ->
            exists w q,
              fst (f (mkArgs price strike sigma rate days paths) w) = inr q
              /\ grid_cell g i j = Some q.
Proof.
  intros _ _ Hcov Hret.
  split; [apply submit_grid_spec|].
  pose proof (rc_wait_returns sched handles c1 Hcov handle_in_range) as Hwait.
  set (c2 := run_schedule sched c1) in *.
  destruct (rc_wait_inv _ _ _ _ Hwait) as [_ Hfin].
  assert (Hget : forall h, h ∈ handles -> exists q, ar_get h c2 = Returned q).
  { intros h Hin. pose proof (Hfin h Hin) as Hf.
    apply list_elem_of_In, in_seq in Hin.
    assert (Hh : exists k, h = (length (tasks c) + k)%nat /\ (k < m * n)%nat)
      by (exists (h - length (tasks c))%nat; lia).
    destruct Hh as (k & -> & Hlt).
    destruct (lookup_lt_is_Some_2 (list_prod strike_vals sigma_vals) k)
      as [[strike sigma] Hk].
    { rewrite length_prod. lia. }
    destruct (handle_result c2 _ strike sigma eq_refl Hk Hf) as [w Hw].
    apply list_elem_of_lookup_2, list_elem_of_In, in_prod_iff in Hk as [Hs Hg].
    destruct (Hret strike sigma w) as [q Hq]; [now apply list_elem_of_In..|].
    rewrite Hq in Hw. eauto. }
  destruct (get_all_total handles c2 Hget) as (results & Hres & HF).
  assert (Hlen : length results = (m * n)%nat).
  { apply Forall2_length in HF. now rewrite length_seq in HF. }
  exists c2, results, (mkGrid (map Some results) m n). cbn [cells n_rows n_cols].
  split; [exact Hwait|]. split; [exact Hres|].
  split; [now apply assemble_full|]. split.
  - unfold run_grid. rewrite submit_grid_spec, Hwait, Hres, assemble_full by exact Hlen.
    unfold set_shape. rewrite length_map, Hlen.
    destruct (decide (m * n = m * n)%nat); [reflexivity|congruence].
  - split; [reflexivity|]. split; [reflexivity|].
    split; [now rewrite length_map|].
    intros i j strike sigma Hi Hj.
    pose proof (lookup_lt_Some _ _ _ Hi) as Hi'.
    pose proof (lookup_lt_Some _ _ _ Hj) as Hj'.
    assert (Hk : (i * n + j < m * n)%nat) by nia.
    assert (Hh : handles !! (i * n + j)%nat = Some (length (tasks c) + (i * n + j))%nat)
      by (now apply lookup_seq_lt).
    destruct (Forall2_lookup_l _ _ _ _ _ HF Hh) as (q & Hq & Hgot).
    destruct (handle_result c2 _ strike sigma eq_refl
                (list_prod_lookup _ _ _ _ _ _ Hi Hj)) as [w Hw].
    { apply Hfin. now apply list_elem_of_lookup_2 in Hh. }
    rewrite Hgot in Hw. exists w, q. split.
    + destruct (fst (f (mkArgs price strike sigma rate days paths) w)); congruence.
    + now apply grid_cell_full.
Qed.

(** C3.  When, after the wait, [get] raises for some handle: [run_grid]
    raises, namely the exception of the first such handle in submission
    order, every handle before it having delivered its quote.  No task is
    ever run a second time.  And a grid that is returned has all its cells
    populated. *)
Theorem task_failure_propagates (n_strikes n_sigmas : nat) :
  (forall c2,
     rc_wait sched handles c1 = Some c2 ->
     (exists h e, h ∈ handles /\ ar_get h c2 = Raised e) ->
     exists pre h post e,
       handles = pre ++ h :: post
       /\ (forall h', h' ∈ pre -> exists q, ar_get h' c2 = Returned q)
       /\ ar_get h c2 = Raised e
       /\ run_grid sched f price rate days paths n_strikes n_sigmas
            strike_vals sigma_vals c = Raised e)
  /\ (forall c2,
        rc_wait sched handles c1 = Some c2 -> log_ok c -> NoDup (executed c2))
  /\ (forall g,
        run_grid sched f price rate days paths n_strikes n_sigmas
          strike_vals sigma_vals c = Returned g ->
        n_strikes = m -> n_sigmas = n ->
        forall i j, (i < n_strikes)%nat -> (j < n_sigmas)%nat ->
        exists q, grid_cell g i j = Some q).
Proof.
  split; [|split].
  - intros c2 Hwait Hfail.
    destruct (rc_wait_inv _ _ _ _ Hwait) as [_ Hfin].
    destruct (get_all_raises handles c2) as (pre & h & post & e & E & Hpre & Hh & Hget).
    { intros h Hin. apply finished_not_blocked. now apply Hfin. }
    { exact Hfail. }
    exists pre, h, post, e. repeat split; try assumption.
    unfold run_grid. now rewrite submit_grid_spec, Hwait, Hget.
  - intros c2 Hwait Hlog.
    destruct (rc_wait_inv _ _ _ _ Hwait) as [-> _].
    apply run_schedule_log_ok. now apply submitted_log_ok.
  - intros g Hrun -> -> i j Hi Hj. unfold run_grid in Hrun.
    rewrite submit_grid_spec in Hrun.
    destruct (rc_wait sched handles c1) as [c2|]; [|discriminate].
    destruct (get_all handles c2) as [results| |] eqn:Hres; try discriminate.
    assert (Hlen : length results = (m * n)%nat).
    { apply get_all_returned, Forall2_length in Hres. now rewrite length_seq in Hres. }
    rewrite assemble_full in Hrun by exact Hlen.
    unfold set_shape in Hrun. rewrite length_map, Hlen in Hrun.
    destruct (decide (m * n = m * n)%nat); [|congruence].
    injection Hrun as <-.
    destruct (lookup_lt_is_Some_2 results (i * n + j)) as [q Hq]; [nia|].
    exists q. now apply grid_cell_full.
Qed.

End Dispatcher.

(** * The notebook's own parameters *)

Lemma length_np_linspace (start stop : R) (num : nat) :
  length (np_linspace start stop num) = num.
Proof. unfold np_linspace. now rewrite length_map, length_seq. Qed.

Lemma np_linspace_first (start stop : R) (num : nat) :
  np_linspace start stop (S num) !! 0%nat = Some start.
Proof.
  unfold np_linspace. cbn [seq map lookup list_lookup INR]. f_equal. lra.
Qed.

Lemma price_options_task_returns (price strike sigma rate : R) (days paths : Z)
    (w : world) :
  (0 < days)%Z -> (0 <= paths)%Z ->
  exists q,
    fst (price_options_task (mkArgs price strike sigma rate days paths) w) = inr q.
Proof.
  intros Hd Hp. unfold price_options_task. cbn [arg_S arg_K arg_sigma arg_r arg_days arg_paths].
  rewrite price_options_returns by assumption. eauto.
Qed.

Lemma reverse_schedule_covers (N : nat) :
  covers (reverse_schedule N) 1 (seq 0 N).
Proof.
  intros h Hin. exists 0%nat. split; [|lia].
  unfold reverse_schedule. apply list_elem_of_fmap. exists h.
  split; [reflexivity|]. now apply elem_of_reverse.
Qed.











(** The notebook on a one-engine cluster that completes the 30 tasks in
    reverse submission order: a 6 x 5 grid with every cell populated. *)
Lemma notebook_fills_every_cell :
  covers (reverse_schedule 30) 1 (seq 0 30)
  /\ exists g : grid,
       notebook (reverse_schedule 30) fresh_cluster = Returned g
       /\ n_rows g = 6%nat /\ n_cols g = 5%nat /\ length (cells g) = 30%nat
       /\ forall i j, (i < 6)%nat -> (j < 5)%nat ->
          exists q, grid_cell g i j = Some q.
Proof.
  split; [exact (reverse_schedule_covers 30)|].
  destruct (run_grid_fills_every_cell price_options_task (reverse_schedule 30)
              100.0 0.05 260 10000
              (np_linspace 90.0 110.0 6) (np_linspace 0.1 0.4 5) fresh_cluster)
    as (_ & c2 & results & g & _ & _ & _ & Hrun & Hr & Hc & Hl & Hcell).
  - discriminate.
  - discriminate.
  - exact (reverse_schedule_covers 30).
  - intros strike sigma w _ _. apply price_options_task_returns; lia.
  - exists g. split; [exact Hrun|]. split; [exact Hr|]. split; [exact Hc|].
    split; [exact Hl|]. intros i j Hi Hj.
    destruct (lookup_lt_is_Some_2 (np_linspace 90.0 110.0 6) i) as [strike Hs];
      [now rewrite length_np_linspace|].
    destruct (lookup_lt_is_Some_2 (np_linspace 0.1 0.4 5) j) as [sigma Hg];
      [now rewrite length_np_linspace|].
    destruct (Hcell i j strike sigma Hs Hg) as (w & q & _ & Hq). eauto.
Defined.

Lemma fresh_cluster_log_ok : log_ok fresh_cluster.
Proof.
  split; [apply NoDup_nil_2|]. intros h Hin. now apply elem_of_nil in Hin.
Defined.

(** A 2 x 2 grid whose tasks run in reverse order on one engine; the second
    run (handle 2) fails, and [run_grid] raises.  A 1 x 1 grid whose only
    task succeeds is returned populated. *)
Lemma task_failure_propagates_second_run :
  (rc_wait (reverse_schedule 4) (seq 0 4) failing_submitted = Some failing_run
   /\ 2%nat ∈ seq 0 4
   /\ ar_get 2 failing_run = Raised (RemoteError (OtherError 42)))
  /\ (exists pre h post e,
        seq 0 4 = pre ++ h :: post
        /\ (forall h', h' ∈ pre -> exists q, ar_get h' failing_run = Returned q)
        /\ ar_get h failing_run = Raised e
        /\ run_grid (reverse_schedule 4) fails_second 100 0.05 260 10000 2 2
             [90; 110] [0.1; 0.4] fresh_cluster = Raised e)
  /\ NoDup (executed failing_run)
  /\ (exists q,
        grid_cell (mkGrid [Some (NaN, NaN, NaN, NaN)] 1 1) 0 0 = Some q).
Proof.
  assert (Hwait : rc_wait (reverse_schedule 4) (seq 0 4) failing_submitted
                  = Some failing_run) by reflexivity.
  assert (Hin : 2%nat ∈ seq 0 4) by (apply list_elem_of_In; simpl; tauto).
  assert (Hget : ar_get 2 failing_run = Raised (RemoteError (OtherError 42)))
    by reflexivity.
  destruct (task_failure_propagates fails_second (reverse_schedule 4)
              100 0.05 260 10000 [90; 110] [0.1; 0.4] fresh_cluster 2 2)
    as (Hfail & Hlog & _).
  destruct (task_failure_propagates fails_second (reverse_schedule 1)
              100 0.05 260 10000 [90] [0.1] fresh_cluster 1 1)
    as (_ & _ & Hfull).
  split; [auto|]. split.
  - apply (Hfail failing_run Hwait). eauto.
  - split.
    + exact (Hlog failing_run Hwait fresh_cluster_log_ok).
    + apply (Hfull (mkGrid [Some (NaN, NaN, NaN, NaN)] 1 1)); auto.
Defined.

(** * Further properties of [price_options] *)

Section Scaling.










End Scaling.

Section Bounds.















End Bounds.

Section Frame.


End Frame.

(** * Further properties of the assembly loop *)

Section AssemblyBounds.

Lemma assemble_overflow (results : list quote) :
  forall (i : nat) (prices : list (option quote)) (writes : list nat),
  (i <= length prices)%nat -> (length prices < i + length results)%nat ->
  assemble i results prices writes = inl IndexError.
Proof.
  induction results as [|q rest IH]; intros i prices writes Hi Hlen.
  - cbn [length] in Hlen. lia.
  - cbn [length] in Hlen. cbn [assemble]. unfold setitem.
    destruct (decide (i < length prices)%nat) as [Hlt|_]; [|reflexivity].
    apply IH; rewrite length_insert; lia.
Qed.

(** The assembly loop raises IndexError exactly when there are more
    results than cells.  Otherwise it writes the results to the cells
    0, 1, ... in order, once each, and leaves the remaining cells as they
    were. *)
Theorem assemble_bounds (results : list quote) (prices : list (option quote)) :
  assemble 0 results prices []
  = if decide (length results <= length prices)%nat
    then inr (map Some results ++ drop (length results) prices,
              seq 0 (length results))
    else inl IndexError.
Proof.
  destruct (decide (length results <= length prices)%nat) as [Hle|Hgt].
  - rewrite assemble_spec by lia. now rewrite take_0.
  - apply assemble_overflow; lia.
Qed.

End AssemblyBounds.

(** * [mpi_order] *)

Section MpiOrder.

Context {A : Type}.

Lemma mpi_order_omap (idx : list nat) (s l : list A) :
  mpi_order idx s = inr l -> omap (fun i => s !! i) idx = l /\ length l = length idx.
Proof.
  revert l. induction idx as [|x idx IH]; intros l E; cbn [mpi_order] in E.
  - injection E as <-. auto.
  - unfold getitem in E. cbn [omap list_omap].
    destruct (s !! x) as [a|]; [|discriminate].
    destruct (mpi_order idx s) as [e|l']; [discriminate|].
    injection E as <-. destruct (IH l' eq_refl) as [-> Hlen].
    cbn [length]. auto.
Qed.

Lemma mpi_order_returns (idx : list nat) (s : list A) :
  Forall (fun x => (x < length s)%nat) idx ->
  exists l, mpi_order idx s = inr l.
Proof.
  induction 1 as [|x idx Hx _ [l IH]]; [now exists []|].
  destruct (lookup_lt_is_Some_2 s x Hx) as [a Ha].
  exists (a :: l). cbn [mpi_order]. unfold getitem. now rewrite Ha, IH.
Qed.

Lemma mpi_order_raises (idx : list nat) (s : list A) :
  Exists (fun x => (length s <= x)%nat) idx ->
  mpi_order idx s = inl IndexError.
Proof.
  induction 1 as [x idx Hx|x idx _ IH]; cbn [mpi_order]; unfold getitem.
  - now rewrite lookup_ge_None_2.
  - destruct (s !! x); [|reflexivity]. now rewrite IH.
Qed.

Lemma omap_lookup_seq (pre s : list A) :
  omap (fun i => (pre ++ s) !! i) (seq (length pre) (length s)) = s.
Proof.
  revert pre. induction s as [|a s IH]; intros pre; [reflexivity|].
  cbn [length seq omap list_omap].
  rewrite lookup_app_r, Nat.sub_diag by lia. cbn [lookup list_lookup]. f_equal.
  specialize (IH (pre ++ [a])). rewrite <- app_assoc, length_app in IH.
  cbn [length app] in IH. now rewrite Nat.add_1_r in IH.
Qed.

(** Indexing fails exactly when [seq] is shorter than [ranks]; otherwise
    the result has one element per engine. *)
Theorem mpi_order_length (ranks : list Z) (idx : list nat) (s : list A) :
  is_argsort ranks idx ->
  ((length s < length ranks)%nat -> mpi_order idx s = inl IndexError)
  /\ ((length ranks <= length s)%nat ->
      exists l, mpi_order idx s = inr l /\ length l = length ranks).
Proof.
  intros [Hperm _]. split.
  - intros Hlt. apply mpi_order_raises, Exists_exists.
    exists (length ranks - 1)%nat. split; [|lia].
    rewrite Hperm. apply list_elem_of_In, in_seq. lia.
  - intros Hle. destruct (mpi_order_returns idx s) as [l Hl].
    + apply Forall_forall. intros x Hx. rewrite Hperm in Hx.
      apply list_elem_of_In, in_seq in Hx. lia.
    + exists l. split; [exact Hl|].
      apply mpi_order_omap in Hl as [_ ->].
      rewrite (Permutation_length Hperm). apply length_seq.
Qed.

(** When [seq] has one element per engine, the result is a rearrangement
    of [seq]: nothing is lost or repeated. *)
Theorem mpi_order_permutation (ranks : list Z) (idx : list nat) (s l : list A) :
  is_argsort ranks idx -> length s = length ranks ->
  mpi_order idx s = inr l -> l ≡ₚ s.
Proof.
  intros [Hperm _] Hlen Hl. apply mpi_order_omap in Hl as [<- _].
  rewrite Hperm, <- Hlen. pose proof (omap_lookup_seq [] s) as H.
  cbn [app length] in H. now rewrite H.
Qed.

End MpiOrder.

Section MpiRanks.

Context {A : Type}.

Lemma mpi_order_Forall2 (idx : list nat) (s l : list A) :
  mpi_order idx s = inr l -> Forall2 (fun x a => s !! x = Some a) idx l.
Proof.
  revert l. induction idx as [|x idx IH]; intros l E; cbn [mpi_order] in E.
  - injection E as <-. constructor.
  - unfold getitem in E. destruct (s !! x) as [a|] eqn:Ha; [|discriminate].
    destruct (mpi_order idx s) as [e|l']; [discriminate|].
    injection E as <-. constructor; [exact Ha|now apply IH].
Qed.

Lemma fmap_nth_seq (ranks : list Z) :
  (fun i => nth i ranks 0%Z) <$> seq 0 (length ranks) = ranks.
Proof.
  apply list_eq. intros i. rewrite list_lookup_fmap.
  destruct (decide (i < length ranks)%nat) as [Hi|Hi].
  - rewrite lookup_seq_lt by exact Hi. cbn [fmap option_fmap option_map Nat.add].
    destruct (lookup_lt_is_Some_2 ranks i Hi) as [r Hr].
    now rewrite Hr, nth_lookup, Hr.
  - rewrite lookup_seq_ge, lookup_ge_None_2 by lia. reflexivity.
Qed.

Lemma ranks_in_order_sorted (a n : nat) :
  StronglySorted Z.le (Z.of_nat <$> seq a n).
Proof.
  revert a. induction n as [|n IH]; intros a; [constructor|].
  cbn [seq fmap list_fmap]. constructor; [apply IH|].
  apply Forall_fmap, Forall_forall. intros y Hy.
  apply list_elem_of_In, in_seq in Hy. cbn. lia.
Qed.

(** When the MPI ranks are 0, ..., n-1 in some order, the item of the
    engine with rank r ends up at position r. *)
Theorem mpi_order_puts_rank_in_place
    (ranks : list Z) (idx : list nat) (s l : list A) :
  is_argsort ranks idx ->
  ranks ≡ₚ Z.of_nat <$> seq 0 (length ranks) ->
  mpi_order idx s = inr l ->
  forall i r x, ranks !! i = Some r -> s !! i = Some x ->
                l !! Z.to_nat r = Some x.
Proof.
  intros [Hperm Hsorted] Hranks Hl i r x Hr Hx.
  set (n := length ranks) in *.
  assert (Hks : (fun j => nth j ranks 0%Z) <$> idx = Z.of_nat <$> seq 0 n).
  { apply (StronglySorted_unique Z.le).
    - now apply Sorted_StronglySorted; [apply _|].
    - apply ranks_in_order_sorted.
    - rewrite Hperm. unfold n. now rewrite fmap_nth_seq. }
  assert (Hin : r ∈ Z.of_nat <$> seq 0 n)
    by (rewrite <- Hranks; now apply list_elem_of_lookup_2 in Hr).
  apply list_elem_of_fmap in Hin as (k & -> & Hk).
  apply list_elem_of_In, in_seq in Hk. rewrite Nat2Z.id.
  assert (Hidx : exists i', idx !! k = Some i')
    by (apply lookup_lt_is_Some_2; rewrite (Permutation_length Hperm), length_seq; lia).
  destruct Hidx as [i' Hi'].
  assert (Hkey : nth i' ranks 0%Z = Z.of_nat k).
  { assert (E : ((fun j => nth j ranks 0%Z) <$> idx) !! k = Some (Z.of_nat k))
      by (rewrite Hks, list_lookup_fmap, lookup_seq_lt by lia; reflexivity).
    rewrite list_lookup_fmap, Hi' in E. now injection E. }
  assert (Hi'n : (i' < n)%nat).
  { apply list_elem_of_lookup_2 in Hi'. rewrite Hperm in Hi'.
    apply list_elem_of_In, in_seq in Hi'. lia. }
  assert (Hr' : ranks !! i' = Some (Z.of_nat k)).
  { destruct (lookup_lt_is_Some_2 ranks i' Hi'n) as [r' Hr'].
    rewrite nth_lookup, Hr' in Hkey. cbn in Hkey. now rewrite Hr', Hkey. }
  assert (Hnd : NoDup ranks).
  { rewrite Hranks. apply NoDup_fmap_2; [apply _|apply NoDup_seq]. }
  assert (i' = i) as -> by (eapply NoDup_lookup; eauto).
  destruct (Forall2_lookup_l _ _ _ _ _ (mpi_order_Forall2 _ _ _ Hl) Hi')
    as (a & Ha & Hsa).
  now rewrite Ha, <- Hsa, Hx.
Qed.

End MpiRanks.

Section Argsort.

#[local] Instance rank_le_total (ranks : list Z) : Total (rank_le ranks).
Proof. intros i j. unfold rank_le. lia. Qed.

Lemma np_argsort_spec (ranks : list Z) : is_argsort ranks (np_argsort ranks).
Proof.
  split.
  - apply merge_sort_Permutation.
  - apply (Sorted_fmap _ (rank_le ranks) Z.le); [now intros i j|].
    apply Sorted_merge_sort, _.
Qed.

End Argsort.

(** * The grid when the constants disagree with the value lists *)

Section ShapeMismatch.

Variables (f : args -> M quote) (sched : schedule).
Variables (price rate : R) (days paths : Z).
Variables (strike_vals sigma_vals : list R) (c : cluster).

Lemma grid_results :
  covers sched (length (engines c))
    (seq (length (tasks c)) (length strike_vals * length sigma_vals)) ->
  (forall strike sigma w,
     strike ∈ strike_vals -> sigma ∈ sigma_vals ->
     exists q, fst (f (mkArgs price strike sigma rate days paths) w) = inr q) ->
  exists (c2 : cluster) (results : list quote),
    rc_wait sched (seq (length (tasks c)) (length strike_vals * length sigma_vals))
      (snd (submit_grid f price rate days paths strike_vals sigma_vals c))
    = Some c2
    /\ get_all (seq (length (tasks c)) (length strike_vals * length sigma_vals)) c2
       = Returned results
    /\ length results = (length strike_vals * length sigma_vals)%nat.
Proof.
  intros Hcov Hret. rewrite submit_grid_spec. cbn [snd].
  set (handles := seq (length (tasks c)) (length strike_vals * length sigma_vals)) in *.
  set (c1 := mkCluster (engines c)
               (tasks c ++ map (grid_task f price rate days paths)
                               (list_prod strike_vals sigma_vals))
               (executed c)).
  pose proof (rc_wait_returns sched handles c1 Hcov
                (handle_in_range f price rate days paths strike_vals sigma_vals c))
    as Hwait.
  destruct (rc_wait_inv _ _ _ _ Hwait) as [_ Hfin].
  destruct (get_all_total handles (run_schedule sched c1)) as (results & Hres & HF).
  { intros h Hin. pose proof (Hfin h Hin) as Hf.
    apply list_elem_of_In, in_seq in Hin.
    assert (Hh : exists k, h = (length (tasks c) + k)%nat
                           /\ (k < length strike_vals * length sigma_vals)%nat)
      by (exists (h - length (tasks c))%nat; lia).
    destruct Hh as (k & -> & Hlt).
    destruct (lookup_lt_is_Some_2 (list_prod strike_vals sigma_vals) k)
      as [[strike sigma] Hk].
    { rewrite length_prod. lia. }
    destruct (handle_result f sched price rate days paths strike_vals sigma_vals c
                (run_schedule sched c1) k strike sigma eq_refl Hk Hf) as [w Hw].
    apply list_elem_of_lookup_2, list_elem_of_In, in_prod_iff in Hk as [Hs Hg].
    destruct (Hret strike sigma w) as [q Hq]; [now apply list_elem_of_In..|].
    rewrite Hq in Hw. eauto. }
  exists (run_schedule sched c1), results.
  split; [exact Hwait|]. split; [exact Hres|].
  apply Forall2_length in HF. unfold handles in HF. now rewrite length_seq in HF.
Qed.

(** With every task succeeding: when [n_strikes * n_sigmas] is smaller
    than the number of submitted pairs the assembly raises IndexError; when
    it is larger the call returns a grid whose cells beyond the last result
    were never written. *)
Theorem run_grid_shape_mismatch (n_strikes n_sigmas : nat) :
  covers sched (length (engines c))
    (seq (length (tasks c)) (length strike_vals * length sigma_vals)) ->
  (forall strike sigma w,
     strike ∈ strike_vals -> sigma ∈ sigma_vals ->
     exists q, fst (f (mkArgs price strike sigma rate days paths) w) = inr q) ->
  ((n_strikes * n_sigmas < length strike_vals * length sigma_vals)%nat ->
     run_grid sched f price rate days paths n_strikes n_sigmas
       strike_vals sigma_vals c = Raised IndexError)
  /\ ((length strike_vals * length sigma_vals < n_strikes * n_sigmas)%nat ->
      exists g,
        run_grid sched f price rate days paths n_strikes n_sigmas
          strike_vals sigma_vals c = Returned g
        /\ length (cells g) = (n_strikes * n_sigmas)%nat
        /\ forall k,
             (length strike_vals * length sigma_vals <= k < n_strikes * n_sigmas)%nat ->
             cells g !! k = Some None).
Proof.
  intros Hcov Hret.
  destruct (grid_results Hcov Hret) as (c2 & results & Hwait & Hres & Hlen).
  rewrite submit_grid_spec in Hwait. cbn [snd] in Hwait.
  split; intros Hlt; unfold run_grid;
    rewrite submit_grid_spec, Hwait, Hres, assemble_bounds;
    unfold np_empty; rewrite length_replicate, Hlen.
  - destruct (decide _) as [Hle|_]; [lia|reflexivity].
  - destruct (decide _) as [_|Hgt]; [|lia].
    unfold set_shape. rewrite length_app, length_map, length_drop, length_replicate, Hlen.
    destruct (decide _) as [_|Hne]; [|lia].
    eexists. split; [reflexivity|]. cbn [cells].
    split.
    + rewrite length_app, length_map, length_drop, length_replicate, Hlen. lia.
    + intros k Hk. rewrite lookup_app_r by (rewrite length_map; lia).
      rewrite length_map, Hlen, lookup_drop.
      apply lookup_replicate_2. lia.
Qed.

End ShapeMismatch.

(** * The crawl graph *)

Section CrawlGraph.

Local Abbreviation fresh_attrs n :=
  (<["label" := AStr n]>
     (setdefault "color" (AStr "black") (setdefault "fill" (AStr "#ccc") ∅))).
Local Abbreviation distance := ({[ "distance" := AInt d ]} : gmap string attr).

Lemma has_node_true (g : digraph) (n : string) :
  has_node g n = true <-> is_Some (g_node g !! n).
Proof. unfold has_node. apply bool_decide_eq_true. Qed.

Lemma has_node_false (g : digraph) (n : string) :
  has_node g n = false <-> g_node g !! n = None.
Proof.
  unfold has_node. rewrite bool_decide_eq_false. symmetry. apply eq_None_not_Some.
Qed.

Lemma add_node_no_kwargs (g : digraph) (n : string) :
  add_node g n ∅ = inr (nx_add_node n (fresh_attrs n) g).
Proof. reflexivity. Qed.

Lemma nx_ensure_node_present (n : string) (nodes : gmap string (gmap string attr)) :
  is_Some (nodes !! n) -> nx_ensure_node n nodes = nodes.
Proof. intros [a Ha]. unfold nx_ensure_node. now rewrite Ha. Qed.

Lemma union_union_same (a b : gmap string attr) : a ∪ (a ∪ b) = a ∪ b.
Proof. now rewrite (assoc_L (∪)), (idemp_L (∪)). Qed.

(** One pass of the loop, from a graph that already holds [src]. *)
Lemma add_links_loop_spec (src : string) (links : list string) :
  forall (acc : list string) (g1 : digraph),
  is_Some (g_node g1 !! src) ->
  exists (news : list string) (g2 : digraph),
    add_links_loop src links (acc, g1) = inr (acc ++ news, g2)
    /\ news `sublist_of` links
    /\ NoDup news
    /\ (forall l, l ∈ news <-> l ∈ links /\ g_node g1 !! l = None)
    /\ (forall n, g_node g2 !! n
                  = if decide (n ∈ links /\ g_node g1 !! n = None)
                    then Some (fresh_attrs n) else g_node g1 !! n)
    /\ (forall e, g_edge g2 !! e
                  = if decide (e.1 = src /\ e.2 ∈ links)
                    then Some (distance ∪ default ∅ (g_edge g1 !! e))
                    else g_edge g1 !! e).
Proof.
  induction links as [|link rest IH]; intros acc g1 Hsrc.
  - exists [], g1. cbn [add_links_loop]. rewrite app_nil_r.
    split; [reflexivity|]. split; [constructor|]. split; [constructor|].
    split; [intros l; split; [intros H; now apply elem_of_nil in H
                             |intros [H _]; now apply elem_of_nil in H]|].
    split.
    + intros n. destruct (decide _) as [[H _]|_]; [now apply elem_of_nil in H|reflexivity].
    + intros e. destruct (decide _) as [[_ H]|_]; [now apply elem_of_nil in H|reflexivity].
  - cbn [add_links_loop]. unfold add_link.
    destruct (has_node g1 link) eqn:Hhas.
    + apply has_node_true in Hhas.
      set (g1' := nx_add_edge src link distance g1).
      assert (Hnodes : g_node g1' = g_node g1).
      { unfold g1', nx_add_edge. cbn [g_node].
        rewrite (nx_ensure_node_present src) by exact Hsrc.
        now apply nx_ensure_node_present. }
      destruct (IH acc g1') as (news & g2 & Hrun & Hsub & Hnd & Hin & Hn & He).
      { now rewrite Hnodes. }
      exists news, g2. split; [exact Hrun|]. split; [now apply sublist_cons|].
      split; [exact Hnd|]. rewrite Hnodes in Hin, Hn. split; [|split].
      * intros l. rewrite Hin, elem_of_cons. split; [intros [H1 H2]; auto|].
        intros [[->|H1] H2]; [|auto]. rewrite H2 in Hhas. now destruct Hhas.
      * intros n. rewrite Hn.
        destruct (decide (n ∈ rest /\ _)) as [[H1 H2]|Hno];
          destruct (decide (n ∈ link :: rest /\ _)) as [[H3 H4]|Hno']; try reflexivity.
        -- exfalso. apply Hno'. split; [apply elem_of_cons; auto|exact H2].
        -- exfalso. apply elem_of_cons in H3 as [->|H3].
           ++ rewrite H4 in Hhas. now destruct Hhas.
           ++ apply Hno. auto.
      * intros e. rewrite He. unfold g1', nx_add_edge. cbn [g_edge].
        destruct (decide (e = (src, link))) as [->|Hne].
        -- cbn [fst snd]. rewrite lookup_insert_eq. cbn [from_option]; unfold Datatypes.id.
           destruct (decide (src = src /\ link ∈ rest)) as [_|_];
             destruct (decide (src = src /\ link ∈ link :: rest)) as [_|Hno];
             try reflexivity.
           ++ now rewrite union_union_same.
           ++ exfalso. apply Hno. split; [reflexivity|apply elem_of_cons; auto].
           ++ exfalso. apply Hno. split; [reflexivity|apply elem_of_cons; auto].
        -- rewrite lookup_insert_ne by congruence.
           destruct (decide (e.1 = src /\ e.2 ∈ rest)) as [[H1 H2]|Hno];
             destruct (decide (e.1 = src /\ e.2 ∈ link :: rest)) as [[H3 H4]|Hno'];
             try reflexivity.
           ++ exfalso. apply Hno'. split; [exact H1|apply elem_of_cons; auto].
           ++ exfalso. apply elem_of_cons in H4 as [H4|H4].
              ** apply Hne. destruct e. cbn in *. congruence.
              ** apply Hno. auto.
    + apply has_node_false in Hhas. rewrite add_node_no_kwargs.
      set (g1a := nx_add_node link (fresh_attrs link) g1).
      set (g1' := nx_add_edge src link distance g1a).
      assert (Hne : link <> src) by (intros ->; rewrite Hhas in Hsrc; now destruct Hsrc).
      assert (Hnodes : g_node g1' = <[link := fresh_attrs link]> (g_node g1)).
      { unfold g1', nx_add_edge, g1a, nx_add_node. cbn [g_node].
        rewrite Hhas. cbn [from_option]; unfold Datatypes.id. rewrite (right_id_L ∅ (∪)).
        rewrite (nx_ensure_node_present src)
          by (rewrite lookup_insert_ne by exact Hne; exact Hsrc).
        apply nx_ensure_node_present. rewrite lookup_insert_eq. eauto. }
      assert (Hedges : g_edge g1'
                       = <[(src, link) := distance ∪ default ∅ (g_edge g1 !! (src, link))]>
                           (g_edge g1)) by reflexivity.
      destruct (IH (acc ++ [link]) g1') as (news & g2 & Hrun & Hsub & Hnd & Hin & Hn & He).
      { rewrite Hnodes, lookup_insert_ne by exact Hne. exact Hsrc. }
      exists (link :: news), g2.
      split; [now rewrite Hrun, <- app_assoc|].
      split; [now apply sublist_skip|].
      rewrite Hnodes in Hin, Hn.
      assert (Hlink : link ∉ news).
      { intros H. apply Hin in H as [_ H]. now rewrite lookup_insert_eq in H. }
      split; [now constructor|]. split; [|split].
      * intros l. rewrite !elem_of_cons, Hin. split.
        -- intros [->|[H1 H2]]; [auto|].
           destruct (decide (link = l)) as [->|Hd];
             [now rewrite lookup_insert_eq in H2|].
           rewrite lookup_insert_ne in H2 by exact Hd. auto.
        -- intros [[->|H1] H2]; [auto|].
           destruct (decide (link = l)) as [->|Hd]; [auto|].
           right. split; [exact H1|]. now rewrite lookup_insert_ne by exact Hd.
      * intros n. rewrite Hn. destruct (decide (link = n)) as [<-|Hd].
        -- rewrite lookup_insert_eq.
           destruct (decide (link ∈ rest /\ _)) as [[_ H]|_]; [discriminate|].
           destruct (decide (link ∈ link :: rest /\ _)) as [_|Hno]; [reflexivity|].
           exfalso. apply Hno. split; [apply elem_of_cons; auto|exact Hhas].
        -- rewrite lookup_insert_ne by exact Hd.
           destruct (decide (n ∈ rest /\ _)) as [[H1 H2]|Hno];
             destruct (decide (n ∈ link :: rest /\ _)) as [[H3 H4]|Hno'];
             try reflexivity.
           ++ exfalso. apply Hno'. split; [apply elem_of_cons; auto|exact H2].
           ++ exfalso. apply elem_of_cons in H3 as [->|H3]; [congruence|].
              apply Hno. auto.
      * intros e. rewrite He, Hedges.
        destruct (decide (e = (src, link))) as [->|Hd].
        -- cbn [fst snd]. rewrite lookup_insert_eq. cbn [from_option]; unfold Datatypes.id.
           destruct (decide (src = src /\ link ∈ rest)) as [_|_];
             destruct (decide (src = src /\ link ∈ link :: rest)) as [_|Hno];
             try reflexivity.
           ++ now rewrite union_union_same.
           ++ exfalso. apply Hno. split; [reflexivity|apply elem_of_cons; auto].
           ++ exfalso. apply Hno. split; [reflexivity|apply elem_of_cons; auto].
        -- rewrite lookup_insert_ne by congruence.
           destruct (decide (e.1 = src /\ e.2 ∈ rest)) as [[H1 H2]|Hno];
             destruct (decide (e.1 = src /\ e.2 ∈ link :: rest)) as [[H3 H4]|Hno'];
             try reflexivity.
           ++ exfalso. apply Hno'. split; [exact H1|apply elem_of_cons; auto].
           ++ exfalso. apply elem_of_cons in H4 as [H4|H4].
              ** apply Hd. destruct e. cbn in *. congruence.
              ** apply Hno. auto.
Qed.

Lemma digraph_eq (a b : digraph) :
  g_node a = g_node b -> g_edge a = g_edge b -> a = b.
Proof. destruct a, b. cbn. now intros -> ->. Qed.

(** What the whole call leaves behind, node by node and edge by edge. *)
Lemma add_links_spec (g : digraph) (src : string) (links : list string) :
  exists (news : list string) (g' : digraph),
    add_links g src links = inr (news, g')
    /\ news `sublist_of` links
    /\ NoDup news
    /\ (forall l, l ∈ news <-> l ∈ links /\ l <> src /\ g_node g !! l = None)
    /\ (forall n, g_node g' !! n
                  = if decide (n = src)
                    then Some (fresh_attrs src ∪ default ∅ (g_node g !! src))
                    else if decide (n ∈ links /\ g_node g !! n = None)
                         then Some (fresh_attrs n) else g_node g !! n)
    /\ (forall e, g_edge g' !! e
                  = if decide (e.1 = src /\ e.2 ∈ links)
                    then Some (distance ∪ default ∅ (g_edge g !! e))
                    else g_edge g !! e).
Proof.
  unfold add_links. rewrite add_node_no_kwargs.
  set (g1 := nx_add_node src (fresh_attrs src) g).
  assert (Hg1 : forall n, g_node g1 !! n
                          = if decide (n = src)
                            then Some (fresh_attrs src ∪ default ∅ (g_node g !! src))
                            else g_node g !! n).
  { intros n. unfold g1, nx_add_node. cbn [g_node].
    destruct (decide (n = src)) as [->|Hne];
      [now rewrite lookup_insert_eq|now rewrite lookup_insert_ne]. }
  destruct (add_links_loop_spec src links [] g1)
    as (news & g' & Hrun & Hsub & Hnd & Hin & Hn & He).
  { rewrite Hg1. destruct (decide (src = src)); [eauto|congruence]. }
  exists news, g'. split; [exact Hrun|]. split; [exact Hsub|].
  split; [exact Hnd|]. split; [|split].
  - intros l. rewrite Hin, Hg1.
    destruct (decide (l = src)) as [->|Hne]; [|tauto].
    split; [intros [_ H]; discriminate|intros (_ & H & _); congruence].
  - intros n. rewrite Hn, !Hg1.
    destruct (decide (n = src)) as [->|Hne].
    + destruct (decide _) as [[_ H]|_]; [discriminate|reflexivity].
    + reflexivity.
  - exact He.
Qed.


(** After [add_links] the graph holds [src] and every link as a node and
    an edge from [src] to every link with distance 200; the nodes it held
    before, other than [src], keep their attributes; edges other than
    those from [src] to a link are untouched; and [src] has its fill
    and color set to the defaults. *)
Theorem add_links_graph (g g' : digraph) (src : string) (links new_nodes : list string) :
  add_links g src links = inr (new_nodes, g') ->
  dom (g_node g') = dom (g_node g) ∪ {[ src ]} ∪ list_to_set links
  /\ (forall l, l ∈ links ->
        exists a, g_edge g' !! (src, l) = Some a
                  /\ a !! "distance" = Some (AInt 200))
  /\ (forall n a, n <> src -> g_node g !! n = Some a -> g_node g' !! n = Some a)
  /\ (forall e, ~ (e.1 = src /\ e.2 ∈ links) -> g_edge g' !! e = g_edge g !! e)
  /\ (exists a, g_node g' !! src = Some a
                /\ a !! "label" = Some (AStr src)
                /\ a !! "fill" = Some (AStr "#ccc")
                /\ a !! "color" = Some (AStr "black")).
Proof.
  intros Hrun.
  destruct (add_links_spec g src links) as (news & g2 & Hrun' & _ & _ & _ & Hn & He).
  rewrite Hrun in Hrun'. injection Hrun' as <- <-.
  split; [|split; [|split; [|split]]].
  - apply set_eq. intros n.
    rewrite !elem_of_union, !elem_of_dom, elem_of_singleton, elem_of_list_to_set, Hn.
    destruct (decide (n = src)) as [->|Hne]; [split; eauto|].
    destruct (decide (n ∈ links /\ _)) as [[H1 H2]|Hno]; [split; eauto|].
    split; [tauto|]. intros [[H|H]|H]; [exact H|congruence|].
    destruct (g_node g !! n) eqn:E; [eauto|]. exfalso. apply Hno. auto.
  - intros l Hl. rewrite He. cbn [fst snd].
    destruct (decide (src = src /\ l ∈ links)) as [_|Hno]; [|tauto].
    eexists. split; [reflexivity|].
    apply lookup_union_Some_l. apply lookup_singleton_eq.
  - intros n a Hne Ha. rewrite Hn.
    destruct (decide (n = src)); [congruence|].
    destruct (decide (n ∈ links /\ _)) as [[_ H]|_]; [congruence|exact Ha].
  - intros e Hno. rewrite He. destruct (decide _); [tauto|reflexivity].
  - rewrite Hn. destruct (decide (src = src)); [|congruence].
    eexists. split; [reflexivity|].
    split; [|split]; apply lookup_union_Some_l; reflexivity.
Qed.

(** Calling [add_links] a second time with the same arguments finds no new
    node and leaves the graph as it is. *)
Theorem add_links_idempotent
    (g g' : digraph) (src : string) (links new_nodes : list string) :
  add_links g src links = inr (new_nodes, g') ->
  add_links g' src links = inr ([], g').
Proof.
  intros Hrun.
  destruct (add_links_spec g src links) as (news & g2 & Hrun' & _ & _ & _ & Hn & He).
  rewrite Hrun in Hrun'. injection Hrun' as <- <-.
  destruct (add_links_spec g' src links)
    as (news' & g'' & Hrun' & _ & _ & Hin' & Hn' & He').
  rewrite Hrun'.
  assert (Hnode : forall l, l ∈ links -> is_Some (g_node g' !! l)).
  { intros l Hl. rewrite Hn. destruct (decide (l = src)); [eauto|].
    destruct (decide (l ∈ links /\ _)) as [_|Hno]; [eauto|].
    destruct (g_node g !! l) eqn:E; [eauto|]. exfalso. apply Hno. auto. }
  assert (news' = []) as ->.
  { apply elem_of_nil_inv. intros l Hl. apply Hin' in Hl as (Hl & _ & Hnone).
    destruct (Hnode l Hl) as [a Ha]. congruence. }
  do 2 f_equal. apply digraph_eq.
  - apply map_eq. intros n. rewrite Hn'.
    destruct (decide (n = src)) as [->|Hne].
    + rewrite Hn. destruct (decide (src = src)); [|congruence].
      cbn [from_option]. unfold Datatypes.id. now rewrite union_union_same.
    + destruct (decide (n ∈ links /\ _)) as [[Hl Hnone]|_]; [|reflexivity].
      destruct (Hnode n Hl) as [a Ha]. congruence.
  - apply map_eq. intros e. rewrite He'.
    destruct (decide (e.1 = src /\ e.2 ∈ links)) as [Hyes|_]; [|reflexivity].
    rewrite He. destruct (decide _); [|tauto].
    cbn [from_option]. unfold Datatypes.id. now rewrite union_union_same.
Qed.


End CrawlGraph.

(** * The image search *)

Section CommonsFacts.

Variable server : nat -> gmap string json -> pyerr + response.

Local Abbreviation api_defaults :=
  ({[ "action" := JStr "query"; "format" := JStr "json" ]} : gmap string json).

Lemma api_request_net (kwargs : gmap string json) (st : net) :
  snd (api_request server kwargs st)
  = mkNet (requests st ++ [kwargs ∪ api_defaults]) (stdout st +:+ ".").
Proof.
  unfold api_request. cbn [requests stdout].
  destruct (server _ _) as [e|r]; [reflexivity|].
  destruct (decide _); [reflexivity|]. now destruct (body r).
Qed.

(** With [limit <= 0] the generator ends at once: it yields nothing and
    makes no request. *)
Theorem search_images_nonpositive_limit
    (fuel : nat) (search : string) (limit size_limit : Z) (st : net) :
  (limit <= 0)%Z ->
  search_images server fuel search limit size_limit st = ([], Done, st).
Proof.
  intros Hl. unfold search_images.
  assert (E : (limit >? 0)%Z = false) by lia.
  destruct fuel; cbn [search_loop]; now rewrite E.
Qed.

Lemma page_loop_limit (size_limit : Z) (results : list json) :
  forall (limit : Z) (st : net),
  (0 < limit)%Z ->
  match page_loop server size_limit results limit st with
  | (ys, fl, limit', _) =>
      (Z.of_nat (length ys) + limit' = limit)%Z
      /\ (0 <= limit')%Z
      /\ (fl = Next -> 0 < limit')%Z
  end.
Proof.
  induction results as [|r rest IH]; intros limit st Hl; cbn [page_loop].
  - cbn [length]. repeat split; lia.
  - destruct (getitem_key "title" r) as [e|title];
      [cbn [length]; repeat split; (lia || discriminate)|].
    destruct (api_request server _ st) as [[e|data] st1];
      [cbn [length]; repeat split; (lia || discriminate)|].
    destruct (first_imageinfo data) as [e|info];
      [cbn [length]; repeat split; (lia || discriminate)|].
    destruct (accepted info size_limit) as [e|[|]];
      [cbn [length]; repeat split; (lia || discriminate)| |apply IH; exact Hl].
    destruct (getitem_key "url" info) as [e|url];
      [cbn [length]; repeat split; (lia || discriminate)|].
    destruct (limit - 1 <=? 0)%Z eqn:E.
    + cbn [length]. repeat split; (lia || discriminate).
    + specialize (IH (limit - 1)%Z st1 ltac:(lia)).
      destruct (page_loop server size_limit rest (limit - 1) st1)
        as [[[ys fl] limit'] st2].
      cbn [length]. destruct IH as (H1 & H2 & H3). repeat split; [lia|lia|exact H3].
Qed.

Lemma search_loop_limit (fuel : nat) (search : string) (size_limit : Z) :
  forall (limit : Z) (cont : json) (st : net),
  (Z.of_nat (length (search_loop server fuel search size_limit limit cont st).1.1)
   <= Z.max limit 0)%Z.
Proof.
  induction fuel as [|fuel IH]; intros limit cont st; cbn [search_loop].
  - destruct (limit >? 0)%Z; cbn; lia.
  - destruct (limit >? 0)%Z eqn:Hl; [|cbn; lia].
    destruct (search_kwargs search limit cont) as [e|kwargs]; [cbn; lia|].
    destruct (api_request server kwargs st) as [[e|data] st1]; [cbn; lia|].
    destruct (match getitem_key "query-continue" data with
              | inl e => inl e | inr qc => getitem_key "search" qc end)
      as [e|cont']; [cbn; lia|].
    destruct (getitem_key "query" data) as [e|q]; [cbn; lia|].
    destruct (match getitem_key "searchinfo" q with
              | inl e => inl e | inr si => getitem_key "totalhits" si end)
      as [e|total]; [cbn; lia|].
    destruct (match getitem_key "search" q with
              | inl e => inl e | inr results => iterate results end)
      as [e|results]; [cbn; lia|].
    pose proof (page_loop_limit size_limit results limit st1 ltac:(lia)) as Hp.
    destruct (page_loop server size_limit results limit st1)
      as [[[ys fl] limit'] st2].
    destruct Hp as (H1 & H2 & H3). destruct fl as [| |e].
    + specialize (IH limit' cont' st2). specialize (H3 eq_refl).
      destruct (search_loop server fuel search size_limit limit' cont' st2)
        as [[ys' en] st3].
      cbn [fst] in *. rewrite length_app. lia.
    + cbn [fst]. lia.
    + cbn [fst]. lia.
Qed.

(** However the server answers and however long the search runs, the
    generator yields at most [limit] URLs. *)
Theorem search_images_at_most_limit
    (fuel : nat) (search : string) (limit size_limit : Z) (st : net) :
  (Z.of_nat (length (search_images server fuel search limit size_limit st).1.1)
   <= Z.max limit 0)%Z.
Proof. apply search_loop_limit. Qed.

(** A first page without a "query-continue" entry, as the API sends when
    the hits fit on one page, makes the generator raise KeyError after its
    single request: the results of that page are not yielded. *)
Theorem search_images_single_page_raises
    (fuel : nat) (search : string) (limit size_limit : Z) (st : net)
    (kwargs : gmap string json) (r : response) (fields : list (string * json)) :
  (0 < limit)%Z ->
  search_kwargs search limit (JObj []) = inr kwargs ->
  server (length (requests st)) (kwargs ∪ api_defaults) = inr r ->
  ~ (400 <= status_code r < 600)%Z ->
  body r = Some (JObj fields) ->
  assoc "query-continue" fields = None ->
  search_images server (S fuel) search limit size_limit st
  = ([], Raises (KeyError "query-continue"),
     mkNet (requests st ++ [kwargs ∪ api_defaults]) (stdout st +:+ ".")).
Proof.
  intros Hl Hk Hs Hst Hb Hq. unfold search_images. cbn [search_loop].
  assert (E : (limit >? 0)%Z = true) by lia. rewrite E, Hk.
  pose proof (api_request_net kwargs st) as Hnet.
  unfold api_request in *. cbn [requests stdout] in *. rewrite Hs in *.
  destruct (decide _) as [?|_]; [tauto|]. rewrite Hb in *.
  cbn [snd] in Hnet. cbn [getitem_key]. rewrite Hq. reflexivity.
Qed.

Lemma api_request_inv (kwargs : gmap string json) (st st1 : net) (data : json) :
  api_request server kwargs st = (inr data, st1) ->
  exists r, server (length (requests st)) (kwargs ∪ api_defaults) = inr r
            /\ body r = Some data.
Proof.
  unfold api_request. cbn [requests stdout].
  destruct (server _ _) as [e|r]; [discriminate|].
  destruct (decide _); [discriminate|].
  destruct (body r) as [d|] eqn:Hb; [|discriminate]. intros E.
  injection E as <- _. eauto.
Qed.

Lemma accepted_inv (info : json) (size_limit : Z) :
  accepted info size_limit = inr true ->
  exists (mime : string) (size : json),
    getitem_key "mime" info = inr (JStr mime)
    /\ (mime = "image/png" \/ mime = "image/jpeg")
    /\ getitem_key "size" info = inr size
    /\ le_limit size size_limit = inr true.
Proof.
  unfold accepted. destruct (getitem_key "mime" info) as [e|mime]; [discriminate|].
  destruct (is_image_mime mime) eqn:Hm; [|discriminate].
  destruct mime as [| | |s| |]; try discriminate.
  apply bool_decide_eq_true in Hm.
  destruct (getitem_key "size" info) as [e|size]; [discriminate|]. eauto 10.
Qed.

Lemma page_loop_accepted (size_limit : Z) (results : list json) :
  forall (limit : Z) (st : net),
  Forall (from_accepted_image server size_limit)
         (page_loop server size_limit results limit st).1.1.1.
Proof.
  induction results as [|r rest IH]; intros limit st; cbn [page_loop].
  - constructor.
  - destruct (getitem_key "title" r) as [e|title]; [constructor|].
    destruct (api_request server _ st) as [[e|data] st1] eqn:Hreq; [constructor|].
    destruct (first_imageinfo data) as [e|info] eqn:Hinfo; [constructor|].
    destruct (accepted info size_limit) as [e|[|]] eqn:Hacc;
      [constructor| |apply IH].
    destruct (getitem_key "url" info) as [e|url] eqn:Hurl; [constructor|].
    assert (Hu : from_accepted_image server size_limit url).
    { destruct (api_request_inv _ _ _ _ Hreq) as (resp & Hs & Hb).
      destruct (accepted_inv _ _ Hacc) as (mime & size & H1 & H2 & H3 & H4).
      unfold from_accepted_image. eauto 20. }
    destruct (limit - 1 <=? 0)%Z.
    + cbn [fst]. repeat constructor. exact Hu.
    + specialize (IH (limit - 1)%Z st1).
      destruct (page_loop server size_limit rest (limit - 1) st1)
        as [[[ys fl] limit'] st2].
      cbn [fst] in *. now constructor.
Qed.

(** Every URL the generator yields was reported by the server for an image
    whose mime type is image/png or image/jpeg and whose size is at most
    [size_limit]. *)
Theorem search_images_yields_accepted
    (fuel : nat) (search : string) (limit size_limit : Z) (st : net) :
  Forall (from_accepted_image server size_limit)
         (search_images server fuel search limit size_limit st).1.1.
Proof.
  unfold search_images. generalize (JObj []) as cont. revert limit st.
  induction fuel as [|fuel IH]; intros limit st cont; cbn [search_loop].
  - destruct (limit >? 0)%Z; constructor.
  - destruct (limit >? 0)%Z; [|constructor].
    destruct (search_kwargs search limit cont) as [e|kwargs]; [constructor|].
    destruct (api_request server kwargs st) as [[e|data] st1]; [constructor|].
    destruct (match getitem_key "query-continue" data with
              | inl e => inl e | inr qc => getitem_key "search" qc end)
      as [e|cont']; [constructor|].
    destruct (getitem_key "query" data) as [e|q]; [constructor|].
    destruct (match getitem_key "searchinfo" q with
              | inl e => inl e | inr si => getitem_key "totalhits" si end)
      as [e|total]; [constructor|].
    destruct (match getitem_key "search" q with
              | inl e => inl e | inr results => iterate results end)
      as [e|results]; [constructor|].
    pose proof (page_loop_accepted size_limit results limit st1) as Hp.
    destruct (page_loop server size_limit results limit st1)
      as [[[ys fl] limit'] st2].
    cbn [fst] in Hp. destruct fl as [| |e]; [|exact Hp|exact Hp].
    specialize (IH limit' st2 cont').
    destruct (search_loop server fuel search size_limit limit' cont' st2)
      as [[ys' en] st3].
    cbn [fst] in *. now apply Forall_app.
Qed.

Lemma search_kwargs_params (search : string) (limit : Z) (cont : json)
    (kwargs : gmap string json) :
  search_kwargs search limit cont = inr kwargs ->
  (kwargs ∪ api_defaults) !! "srlimit" = Some (JNum (Z.min limit 50)).
Proof.
  unfold search_kwargs. destruct cont as [| | | | |fields]; try discriminate.
  destruct (forallb _ fields); [|discriminate]. intros E. injection E as <-.
  apply lookup_union_Some_l, lookup_union_Some_l. reflexivity.
Qed.

Lemma page_loop_requests (size_limit : Z) (results : list json) :
  forall (limit : Z) (st : net),
  exists new,
    requests (page_loop server size_limit results limit st).2
    = requests st ++ new
    /\ Forall (fun p => p !! "list" = None) new.
Proof.
  induction results as [|r rest IH]; intros limit st; cbn [page_loop].
  - exists []. now rewrite app_nil_r.
  - destruct (getitem_key "title" r) as [e|title];
      [exists []; now rewrite app_nil_r|].
    pose proof (api_request_net
                  {[ "prop" := JStr "imageinfo"; "titles" := title;
                     "iiprop" := JStr "url|size|mime" ]} st) as Hnet.
    destruct (api_request server _ st) as [res st1]. cbn [snd] in Hnet. subst st1.
    set (p := _ ∪ api_defaults).
    assert (Hp : p !! "list" = None) by reflexivity.
    set (st1 := mkNet _ _).
    assert (Hend : exists new, requests st1 = requests st ++ new
                               /\ Forall (fun p => p !! "list" = None) new)
      by (exists [p]; split; [reflexivity|now repeat constructor]).
    assert (Hrec : forall limit',
               exists new,
                 requests (page_loop server size_limit rest limit' st1).2
                 = requests st ++ new
                 /\ Forall (fun p => p !! "list" = None) new).
    { intros limit'. destruct (IH limit' st1) as (new & E & HF).
      exists (p :: new). split; [|now constructor].
      rewrite E. unfold st1. cbn [requests]. now rewrite <- app_assoc. }
    destruct res as [e|data]; [exact Hend|].
    destruct (first_imageinfo data) as [e|info]; [exact Hend|].
    destruct (accepted info size_limit) as [e|[|]]; [exact Hend| |apply Hrec].
    destruct (getitem_key "url" info) as [e|url]; [exact Hend|].
    destruct (limit - 1 <=? 0)%Z; [exact Hend|].
    specialize (Hrec (limit - 1)%Z).
    destruct (page_loop server size_limit rest (limit - 1) st1)
      as [[[ys fl] limit'] st2]. exact Hrec.
Qed.

Lemma search_loop_requests (fuel : nat) (search : string) (size_limit limit0 : Z) :
  forall (limit : Z) (st' : net) (cont : json),
  (limit <= limit0)%Z ->
  exists new,
    requests (search_loop server fuel search size_limit limit cont st').2
    = requests st' ++ new
    /\ Forall (fun p => p !! "list" = None
                        \/ exists k, p !! "srlimit" = Some (JNum k)
                                     /\ (1 <= k <= 50)%Z /\ (k <= limit0)%Z) new.
Proof.
  induction fuel as [|fuel IH]; intros limit st' cont Hle;
    cbn [search_loop].
  - destruct (limit >? 0)%Z; exists []; now rewrite app_nil_r.
  - destruct (limit >? 0)%Z eqn:Hl; [|exists []; now rewrite app_nil_r].
    destruct (search_kwargs search limit cont) as [e|kwargs] eqn:Hk;
      [exists []; now rewrite app_nil_r|].
    pose proof (api_request_net kwargs st') as Hnet.
    destruct (api_request server kwargs st') as [res st1]. cbn [snd] in Hnet.
    assert (Hend : exists new,
               requests st1 = requests st' ++ new
               /\ Forall (fun p => p !! "list" = None
                            \/ exists k, p !! "srlimit" = Some (JNum k)
                                         /\ (1 <= k <= 50)%Z /\ (k <= limit0)%Z) new).
    { exists [kwargs ∪ api_defaults]. subst st1. split; [reflexivity|].
      constructor; [|constructor]. right. exists (Z.min limit 50).
      split; [now apply (search_kwargs_params search limit cont)|]. lia. }
    destruct res as [e|data]; [exact Hend|].
    destruct (match getitem_key "query-continue" data with
              | inl e => inl e | inr qc => getitem_key "search" qc end)
      as [e|cont']; [exact Hend|].
    destruct (getitem_key "query" data) as [e|q]; [exact Hend|].
    destruct (match getitem_key "searchinfo" q with
              | inl e => inl e | inr si => getitem_key "totalhits" si end)
      as [e|total]; [exact Hend|].
    destruct (match getitem_key "search" q with
              | inl e => inl e | inr results => iterate results end)
      as [e|results]; [exact Hend|].
    destruct Hend as (new1 & E1 & HF1).
    destruct (page_loop_requests size_limit results limit st1) as (new2 & E2 & HF2).
    pose proof (page_loop_limit size_limit results limit st1 ltac:(lia)) as Hp.
    destruct (page_loop server size_limit results limit st1)
      as [[[ys fl] limit'] st2].
    cbn [snd] in E2. destruct Hp as (H1 & H2 & _).
    assert (Hend2 : exists new,
               requests st2 = requests st' ++ new
               /\ Forall (fun p => p !! "list" = None
                            \/ exists k, p !! "srlimit" = Some (JNum k)
                                         /\ (1 <= k <= 50)%Z /\ (k <= limit0)%Z) new).
    { exists (new1 ++ new2). split; [now rewrite E2, E1, app_assoc|].
      apply Forall_app. split; [exact HF1|].
      eapply Forall_impl; [exact HF2|]. cbn beta. auto. }
    destruct fl as [| |e]; [|exact Hend2|exact Hend2].
    destruct (IH limit' st2 cont' ltac:(lia)) as (new3 & E3 & HF3).
    destruct (search_loop server fuel search size_limit limit' cont' st2)
      as [[ys' en] st3].
    cbn [snd] in *. destruct Hend2 as (new12 & E12 & HF12).
    exists (new12 ++ new3). split; [now rewrite E3, E12, app_assoc|].
    now apply Forall_app.
Qed.

(** No search request asks for more than 50 results, nor for more than
    [limit]. *)
Theorem search_images_page_size
    (fuel : nat) (search : string) (limit size_limit : Z) (st : net) :
  exists new,
    requests (search_images server fuel search limit size_limit st).2
    = requests st ++ new
    /\ Forall (fun p => p !! "list" = None
                        \/ exists k, p !! "srlimit" = Some (JNum k)
                                     /\ (1 <= k <= 50)%Z /\ (k <= limit)%Z) new.
Proof. apply search_loop_requests. lia. Qed.

End CommonsFacts.

(** * File names *)

Section FileNames.

Lemma no_slash_cons (c : Ascii.ascii) (f : string) :
  Ascii.eqb c "/"%char = false ->
  (forall a b, f <> a +:+ "/" +:+ b) ->
  forall a b, String c f <> a +:+ "/" +:+ b.
Proof.
  intros Hc Hf [|c' a] b E; cbn in E.
  - injection E as -> _. now rewrite Ascii.eqb_refl in Hc.
  - injection E as _ E. now apply Hf in E.
Qed.

Lemma rsplit_last (url : string) :
  exists (pieces : list string) (fname : string),
    rsplit "/"%char url = pieces ++ [fname]
    /\ (forall a b, fname <> a +:+ "/" +:+ b)
    /\ ((pieces = [] /\ url = fname)
        \/ (pieces <> [] /\ exists dir, url = dir +:+ "/" +:+ fname)).
Proof.
  induction url as [|c rest (pieces & fname & Hs & Hno & Hurl)].
  - exists [], EmptyString. split; [reflexivity|]. split; [|now left].
    intros [|c a] b; discriminate.
  - cbn [rsplit]. destruct (Ascii.eqb c "/"%char) eqn:Hc.
    + apply Ascii.eqb_eq in Hc as ->. rewrite Hs.
      exists (EmptyString :: pieces), fname. split; [reflexivity|].
      split; [exact Hno|]. right. split; [discriminate|].
      destruct Hurl as [[_ ->]|[_ [dir ->]]].
      * now exists EmptyString.
      * now exists (String "/"%char dir).
    + rewrite Hs. destruct pieces as [|p0 pieces].
      * exists [], (String c fname). split; [reflexivity|].
        split; [now apply no_slash_cons|]. left. split; [reflexivity|].
        destruct Hurl as [[_ ->]|[H _]]; [reflexivity|congruence].
      * exists (String c p0 :: pieces), fname. split; [reflexivity|].
        split; [exact Hno|]. right. split; [discriminate|].
        destruct Hurl as [[H _]|[_ [dir ->]]]; [discriminate|].
        now exists (String c dir).
Qed.

(** The file name taken from a URL contains no slash, and the URL is the
    file name itself or ends with a slash followed by the file name. *)
Theorem fname_is_last_segment (url : string) :
  (forall a b, fname_of url <> a +:+ "/" +:+ b)
  /\ (url = fname_of url \/ exists dir, url = dir +:+ "/" +:+ fname_of url).
Proof.
  destruct (rsplit_last url) as (pieces & fname & Hs & Hno & Hurl).
  assert (E : fname_of url = fname).
  { unfold fname_of. rewrite Hs. apply last_last. }
  rewrite E. split; [exact Hno|].
  destruct Hurl as [[_ H]|[_ H]]; auto.
Qed.

End FileNames.

(** * Instances of the further properties *)






(** Two submitted pairs: one cell is too few, four cells leave two
    unwritten. *)
Lemma run_grid_shape_mismatch_two_pairs :
  covers (reverse_schedule 2) 1 (seq 0 2)
  /\ run_grid (reverse_schedule 2) price_options_task 100 0.05 260 10000 1 1
       [90; 110] [0.1] fresh_cluster = Raised IndexError
  /\ exists g,
       run_grid (reverse_schedule 2) price_options_task 100 0.05 260 10000 2 2
         [90; 110] [0.1] fresh_cluster = Returned g
       /\ length (cells g) = 4%nat
       /\ cells g !! 2%nat = Some None /\ cells g !! 3%nat = Some None.
Proof.
  assert (Hret : forall strike sigma w,
             strike ∈ [90; 110] -> sigma ∈ [0.1] ->
             exists q, fst (price_options_task
                              (mkArgs 100 strike sigma 0.05 260 10000) w) = inr q)
    by (intros; apply price_options_task_returns; lia).
  split; [exact (reverse_schedule_covers 2)|]. split.
  - apply (run_grid_shape_mismatch price_options_task (reverse_schedule 2)
             100 0.05 260 10000 [90; 110] [0.1] fresh_cluster 1 1
             (reverse_schedule_covers 2) Hret).
    cbn. lia.
  - destruct (run_grid_shape_mismatch price_options_task (reverse_schedule 2)
                100 0.05 260 10000 [90; 110] [0.1] fresh_cluster 2 2
                (reverse_schedule_covers 2) Hret) as [_ H].
    destruct H as (g & Hrun & Hlen & Hcells); [cbn; lia|].
    exists g. split; [exact Hrun|]. split; [exact Hlen|].
    split; apply Hcells; cbn; lia.
Defined.

(** Ranks 2, 0, 1: a two-element sequence is too short, a three-element
    one is reordered. *)
Lemma mpi_order_length_three_ranks :
  is_argsort three_ranks (np_argsort three_ranks)
  /\ mpi_order (np_argsort three_ranks) ["a"; "b"] = inl IndexError
  /\ exists l, mpi_order (np_argsort three_ranks) ["a"; "b"; "c"] = inr l
               /\ length l = 3%nat.
Proof.
  pose proof (np_argsort_spec three_ranks) as Hspec.
  split; [exact Hspec|]. split.
  - apply (mpi_order_length three_ranks (np_argsort three_ranks) ["a"; "b"] Hspec).
    cbn. lia.
  - apply (mpi_order_length three_ranks (np_argsort three_ranks) ["a"; "b"; "c"] Hspec).
    cbn. lia.
Defined.

Lemma mpi_order_permutation_three_ranks :
  (is_argsort three_ranks (np_argsort three_ranks)
   /\ mpi_order (np_argsort three_ranks) ["a"; "b"; "c"] = inr ["b"; "c"; "a"])
  /\ ["b"; "c"; "a"] ≡ₚ ["a"; "b"; "c"].
Proof.
  pose proof (np_argsort_spec three_ranks) as Hspec.
  assert (Hrun : mpi_order (np_argsort three_ranks) ["a"; "b"; "c"]
                 = inr ["b"; "c"; "a"]) by reflexivity.
  split; [auto|].
  exact (mpi_order_permutation three_ranks (np_argsort three_ranks)
           ["a"; "b"; "c"] ["b"; "c"; "a"] Hspec eq_refl Hrun).
Defined.

Lemma three_ranks_are_a_permutation :
  three_ranks ≡ₚ Z.of_nat <$> seq 0 (length three_ranks).
Proof.
  unfold three_ranks. cbn.
  transitivity [0; 2; 1]%Z; [apply perm_swap|]. apply perm_skip, perm_swap.
Defined.

(** Engine 0 has rank 2: its item "a" ends up at position 2. *)
Lemma mpi_order_puts_rank_in_place_three_ranks :
  (is_argsort three_ranks (np_argsort three_ranks)
   /\ three_ranks ≡ₚ Z.of_nat <$> seq 0 (length three_ranks)
   /\ mpi_order (np_argsort three_ranks) ["a"; "b"; "c"] = inr ["b"; "c"; "a"])
  /\ ["b"; "c"; "a"] !! Z.to_nat 2 = Some "a".
Proof.
  pose proof (np_argsort_spec three_ranks) as Hspec.
  assert (Hrun : mpi_order (np_argsort three_ranks) ["a"; "b"; "c"]
                 = inr ["b"; "c"; "a"]) by reflexivity.
  split; [auto using three_ranks_are_a_permutation|].
  exact (mpi_order_puts_rank_in_place three_ranks (np_argsort three_ranks)
           ["a"; "b"; "c"] ["b"; "c"; "a"] Hspec three_ranks_are_a_permutation Hrun
           0%nat 2%Z "a" eq_refl eq_refl).
Defined.


Lemma linked_graph_run :
  add_links empty_graph "A" ["B"; "A"; "B"] = inr (["B"], linked_graph).
Proof. reflexivity. Defined.

(** From the empty graph, source "A" and links B, A, B. *)
Lemma add_links_graph_example :
  add_links empty_graph "A" ["B"; "A"; "B"] = inr (["B"], linked_graph)
  /\ dom (g_node linked_graph)
     = dom (g_node empty_graph) ∪ {[ "A" ]} ∪ list_to_set ["B"; "A"; "B"]
  /\ exists a, g_edge linked_graph !! ("A", "A") = Some a
               /\ a !! "distance" = Some (AInt 200).
Proof.
  split; [exact linked_graph_run|].
  destruct (add_links_graph empty_graph linked_graph "A" ["B"; "A"; "B"] ["B"]
              linked_graph_run) as (Hdom & Hedge & _).
  split; [exact Hdom|]. apply Hedge.
  apply elem_of_cons. right. apply elem_of_cons. now left.
Defined.

Lemma add_links_idempotent_example :
  add_links empty_graph "A" ["B"; "A"; "B"] = inr (["B"], linked_graph)
  /\ add_links linked_graph "A" ["B"; "A"; "B"] = inr ([], linked_graph).
Proof.
  split; [exact linked_graph_run|].
  exact (add_links_idempotent empty_graph linked_graph "A" ["B"; "A"; "B"] ["B"]
           linked_graph_run).
Defined.

Lemma search_images_nonpositive_limit_zero :
  (0 <= 0)%Z
  /\ search_images one_page_server 5 "castle" 0 1000000 (mkNet [] "")
     = ([], Done, mkNet [] "").
Proof.
  assert (H : (0 <= 0)%Z) by lia. split; [exact H|].
  exact (search_images_nonpositive_limit one_page_server 5 "castle" 0 1000000
           (mkNet [] "") H).
Defined.

(** A search whose hits fit on one page. *)
Lemma search_images_single_page_raises_castle :
  exists st',
    search_images one_page_server 3 "castle" 100 1000000 (mkNet [] "")
    = ([], Raises (KeyError "query-continue"), st')
    /\ length (requests st') = 1%nat /\ stdout st' = ".".
Proof.
  eexists. split.
  - eapply (search_images_single_page_raises one_page_server 2 "castle" 100 1000000
              (mkNet [] "")).
    + lia.
    + reflexivity.
    + reflexivity.
    + cbn. lia.
    + reflexivity.
    + reflexivity.
  - split; reflexivity.
Defined.
